(** * Snake's World: the simulation core of the snake game, embedded in Rocq

    The development follows the game source (the multi-fruit version with the
    speed ramp): the free functions [ElementInDeque] and [EventTriggered], the
    classes [Snake], [Food] and [Game], and the per-frame body of [main].

    Modelling choices.
    - A [Vector2] holds two C floats.  Every coordinate the game stores is a
      small integer (grid cells, unit directions, sums of the two), which a
      float represents exactly and on which raymath's [Vector2Equals] is plain
      equality; coordinates are therefore integers of [Z].
    - [speed], [lastUpdateTime] and the clock are C doubles and are kept as
      binary64 floats ([PrimFloat]), with the source's operations on them.
    - [score], [high_score] and [temp_score] are C ints; incrementing the
      largest int is undefined behaviour and is reported as such.
    - The library calls are the external world: [GetRandomValue] reads the
      next value of a stream of raw draws, [PlaySound] appends to a log,
      [GetTime] and the key and button polls are inputs of a frame.
    - The resampling [while] loop of [GenerateRandomPos] has no bound in the
      source; it is run with a fuel, and running out of fuel is the outcome
      [Diverges]. *)

From Stdlib Require Import ZArith QArith Qabs List Bool Lia.
From Stdlib Require Import PrimFloat FloatOps SpecFloat.
Import ListNotations.
Set Warnings "-inexact-float".
Local Open Scope Z_scope.

(** ** Outcomes of a computation *)

Inductive result (A : Type) : Type :=
| Ok (a : A)
| Undefined
| Diverges.
Arguments Ok {A} a.
Arguments Undefined {A}.
Arguments Diverges {A}.

(** ** Data *)

Definition Vector2 : Type := (Z * Z)%type.

Definition Vector2Add (v1 v2 : Vector2) : Vector2 :=
  (fst v1 + fst v2, snd v1 + snd v2).

(** raymath's [Vector2Equals] on the integer cells the game stores, where its
    tolerance test is equality ([Vector2Equals_raymath_exact] below). *)
Definition Vector2Equals (p q : Vector2) : bool :=
  (fst p =? fst q) && (snd p =? snd q).

Inductive Sound : Type := wall | eat.

Definition Sound_eqb (a b : Sound) : bool :=
  match a, b with
  | wall, wall => true
  | eat, eat => true
  | _, _ => false
  end.

(** The globals of the translation unit that the simulation reads. *)
Definition cellcount : Z := 25.
Definition INT_MAX : Z := 2147483647.

(** The mutable globals and the state of the library: [high_score],
    [temp_score], [lastUpdateTime], the position in the stream of random draws
    and the sounds played so far, most recent first. *)
Record Env : Type := mkEnv {
  high_score : Z;
  temp_score : Z;
  lastUpdateTime : float;
  rand_cursor : nat;
  played : list Sound
}.

Record Snake : Type := mkSnake {
  addSegment : bool;
  body : list Vector2;
  direction : Vector2
}.

Record Food : Type := mkFood {
  position : Vector2;
  textureIndex : Z
}.

Record Game : Type := mkGame {
  score : Z;
  speed : float;
  running : bool;
  game_over : bool;
  snake : Snake;
  fruits : list Food
}.

(** What one iteration of the main loop polls from the window, the keyboard,
    the mouse and the clock. *)
Record Input : Type := mkInput {
  now : float;
  enter_pressed : bool;
  restart_clicked : bool;
  exit_clicked : bool;
  start_clicked : bool;
  up_pressed : bool;
  down_pressed : bool;
  left_pressed : bool;
  right_pressed : bool
}.

(** Field updates. *)
Definition set_snake (s : Snake) (g : Game) : Game :=
  mkGame (score g) (speed g) (running g) (game_over g) s (fruits g).
Definition set_fruits (fs : list Food) (g : Game) : Game :=
  mkGame (score g) (speed g) (running g) (game_over g) (snake g) fs.
Definition set_score (n : Z) (g : Game) : Game :=
  mkGame n (speed g) (running g) (game_over g) (snake g) (fruits g).
Definition set_speed (v : float) (g : Game) : Game :=
  mkGame (score g) v (running g) (game_over g) (snake g) (fruits g).
Definition set_running (b : bool) (g : Game) : Game :=
  mkGame (score g) (speed g) b (game_over g) (snake g) (fruits g).
Definition set_game_over (b : bool) (g : Game) : Game :=
  mkGame (score g) (speed g) (running g) b (snake g) (fruits g).
Definition set_addSegment (b : bool) (s : Snake) : Snake :=
  mkSnake b (body s) (direction s).
Definition set_direction (d : Vector2) (s : Snake) : Snake :=
  mkSnake (addSegment s) (body s) d.

(** ** The monad of the simulation: state [Env], outcomes [result] *)

Definition M (A : Type) : Type := Env -> result (A * Env).

Definition ret {A : Type} (a : A) : M A := fun e => Ok (a, e).

Definition bind {A B : Type} (m : M A) (k : A -> M B) : M B :=
  fun e =>
    match m e with
    | Ok (a, e') => k a e'
    | Undefined => Undefined
    | Diverges => Diverges
    end.

Definition lift {A : Type} (r : result A) : M A :=
  fun e =>
    match r with
    | Ok a => Ok (a, e)
    | Undefined => Undefined
    | Diverges => Diverges
    end.

Definition undefined {A : Type} : M A := fun _ => Undefined.
Definition diverges {A : Type} : M A := fun _ => Diverges.

Declare Scope sim_scope.
Delimit Scope sim_scope with sim.
Notation "x <- m ;; k" := (bind m (fun x => k))
  (at level 61, m at next level, right associativity) : sim_scope.
Notation "m ;;; k" := (bind m (fun _ => k))
  (at level 61, right associativity) : sim_scope.
Local Open Scope sim_scope.

(** ** Free functions *)

(** [ElementInDeque]: the indexed scan with its early return. *)
Fixpoint ElementInDeque (element : Vector2) (deque : list Vector2) : bool :=
  match deque with
  | [] => false
  | c :: rest => if Vector2Equals c element then true else ElementInDeque element rest
  end.

(** [EventTriggered]: [currentTime] is what [GetTime] returned. *)
Definition EventTriggered (currentTime interval : float) : M bool :=
  fun e =>
    if PrimFloat.leb interval (PrimFloat.sub currentTime (lastUpdateTime e))
    then Ok (true, mkEnv (high_score e) (temp_score e) currentTime
                         (rand_cursor e) (played e))
    else Ok (false, e).

(** [PlaySound]. *)
Definition PlaySound (s : Sound) : M unit :=
  fun e => Ok (tt, mkEnv (high_score e) (temp_score e) (lastUpdateTime e)
                         (rand_cursor e) (s :: played e)).

(** ** class Snake *)

Definition initial_body : list Vector2 := [(6, 9); (5, 9); (4, 9)].
Definition initial_direction : Vector2 := (1, 0).

Definition Snake_new : Snake := mkSnake false initial_body initial_direction.

(** [Snake::Update].  [body[0]] of an empty deque is undefined behaviour;
    [pop_back] after the [push_front] is [removelast]. *)
Definition Snake_Update (s : Snake) : result Snake :=
  match body s with
  | [] => Undefined
  | head :: _ =>
      let pushed := Vector2Add head (direction s) :: body s in
      if addSegment s
      then Ok (mkSnake false pushed (direction s))
      else Ok (mkSnake (addSegment s) (removelast pushed) (direction s))
  end.

(** [Snake::Reset] assigns [body] and [direction], nothing else. *)
Definition Snake_Reset (s : Snake) : Snake :=
  mkSnake (addSegment s) initial_body initial_direction.

(** ** The random stream, class Food and class Game *)

Section Simulation.

(** The raw values the library's generator hands out, in order. *)
Variable rand : nat -> Z.

(** [GetRandomValue(min, max)]: the next raw value reduced into
    [min .. max], as raylib does for [min <= max]. *)
Definition GetRandomValue (min max : Z) : M Z :=
  fun e =>
    Ok (min + rand (rand_cursor e) mod (Z.abs (max - min) + 1),
        mkEnv (high_score e) (temp_score e) (lastUpdateTime e)
              (S (rand_cursor e)) (played e)).

(** [Food::GenerateRandomCell]. *)
Definition GenerateRandomCell : M Vector2 :=
  x <- GetRandomValue 0 (cellcount - 1) ;;
  y <- GetRandomValue 0 (cellcount - 1) ;;
  ret (x, y).

(** The [while] of [Food::GenerateRandomPos], entered with the current
    candidate; [fuel] bounds the number of resamplings. *)
Fixpoint resample (fuel : nat) (snakeBody : list Vector2) (newPos : Vector2)
  : M Vector2 :=
  if ElementInDeque newPos snakeBody
  then match fuel with
       | O => diverges
       | S fuel' =>
           newPos' <- GenerateRandomCell ;;
           resample fuel' snakeBody newPos'
       end
  else ret newPos.

(** [Food::GenerateRandomPos]. *)
Definition GenerateRandomPos (fuel : nat) (snakeBody : list Vector2) : M Vector2 :=
  newPos <- GenerateRandomCell ;;
  resample fuel snakeBody newPos.

(** [Food::Food(snakeBody)]; loading the shared textures is rendering set-up
    and leaves the simulation state alone. *)
Definition Food_new (fuel : nat) (snakeBody : list Vector2) : M Food :=
  ti <- GetRandomValue 0 3 ;;
  p <- GenerateRandomPos fuel snakeBody ;;
  ret (mkFood p ti).

(** The loop [for (i = 0; i < n; i++) fruits.push_back(Food(snake.body))]. *)
Fixpoint push_fruits (fuel : nat) (n : nat) (snakeBody : list Vector2)
    (fs : list Food) : M (list Food) :=
  match n with
  | O => ret fs
  | S n' =>
      f <- Food_new fuel snakeBody ;;
      push_fruits fuel n' snakeBody (fs ++ [f])
  end.

(** [Game::Game()]. *)
Definition Game_new (fuel : nat) : M Game :=
  let snake0 := Snake_new in
  fs <- push_fruits fuel 3 (body snake0) [] ;;
  ret (mkGame 0 0.2%float false false snake0 fs).

(** [score++] on a C int. *)
Definition int_incr (n : Z) : result Z :=
  if n <? INT_MAX then Ok (n + 1) else Undefined.

(** [if (speed >= 0.07) speed *= 0.98;] *)
Definition speed_up (v : float) : float :=
  if PrimFloat.leb 0.07%float v then PrimFloat.mul v 0.98%float else v.

(** The body of the loop of [Game::CheckCollisionWithFood] for the fruit [f];
    it returns the fruit as the iteration leaves it and the game's other
    members as updated. *)
Definition eat_fruit (fuel : nat) (f : Food) (g : Game) : M (Food * Game) :=
  match body (snake g) with
  | [] => undefined
  | head :: _ =>
      if Vector2Equals head (position f)
      then
        p <- GenerateRandomPos fuel (body (snake g)) ;;
        ti <- GetRandomValue 0 3 ;;
        n <- lift (int_incr (score g)) ;;
        PlaySound eat ;;;
        ret (mkFood p ti,
             set_speed (speed_up (speed g))
               (set_score n (set_snake (set_addSegment true (snake g)) g)))
      else ret (f, g)
  end.

(** [for (auto &f : fruits)] over the fruits still to visit. *)
Fixpoint for_fruits (fuel : nat) (fs : list Food) (g : Game)
  : M (list Food * Game) :=
  match fs with
  | [] => ret ([], g)
  | f :: rest =>
      r <- eat_fruit fuel f g ;;
      r' <- for_fruits fuel rest (snd r) ;;
      ret (fst r :: fst r', snd r')
  end.

(** [Game::CheckCollisionWithFood]. *)
Definition CheckCollisionWithFood (fuel : nat) (g : Game) : M Game :=
  r <- for_fruits fuel (fruits g) g ;;
  ret (set_fruits (fst r) (snd r)).

(** [Game::GameOver]. *)
Definition GameOver (fuel : nat) (g : Game) : M Game :=
  let g1 := set_game_over true g in
  let g2 := set_snake (Snake_Reset (snake g1)) g1 in
  fs <- push_fruits fuel 3 (body (snake g2)) [] ;;
  let g3 := set_running false (set_speed 0.2%float (set_fruits fs g2)) in
  fun e =>
    let hs := if high_score e <=? score g3 then score g3 else high_score e in
    Ok (set_speed 0.2%float (set_score 0 g3),
        mkEnv hs (score g3) (lastUpdateTime e) (rand_cursor e) (played e)).

(** [Game::CheckCollisionWithEdges]: the test on [x], then the test on [y] of
    whatever the head is by then. *)
Definition CheckCollisionWithEdges (fuel : nat) (g : Game) : M Game :=
  match body (snake g) with
  | [] => undefined
  | head :: _ =>
      g1 <- (if (fst head =? cellcount) || (fst head =? -1)
             then g' <- GameOver fuel g ;; PlaySound wall ;;; ret g'
             else ret g) ;;
      match body (snake g1) with
      | [] => undefined
      | head1 :: _ =>
          if (snd head1 =? cellcount) || (snd head1 =? -1)
          then g' <- GameOver fuel g1 ;; PlaySound wall ;;; ret g'
          else ret g1
      end
  end.

(** [Game::CheckCollisionsWithTail]: [headless] is the body without its
    first cell. *)
Definition CheckCollisionsWithTail (fuel : nat) (g : Game) : M Game :=
  match body (snake g) with
  | [] => undefined
  | head :: headless =>
      if ElementInDeque head headless
      then g' <- GameOver fuel g ;; PlaySound wall ;;; ret g'
      else ret g
  end.

(** [Game::Update]. *)
Definition Update (fuel : nat) (g : Game) : M Game :=
  if running g
  then
    s <- lift (Snake_Update (snake g)) ;;
    g1 <- CheckCollisionWithFood fuel (set_snake s g) ;;
    g2 <- CheckCollisionWithEdges fuel g1 ;;
    CheckCollisionsWithTail fuel g2
  else ret g.

(** ** The direction keys and one iteration of the loop of [main] *)

Inductive Key : Type := KEY_UP | KEY_DOWN | KEY_LEFT | KEY_RIGHT.

(** The vector a handler assigns. *)
Definition key_direction (k : Key) : Vector2 :=
  match k with
  | KEY_UP => (0, -1)
  | KEY_DOWN => (0, 1)
  | KEY_LEFT => (-1, 0)
  | KEY_RIGHT => (1, 0)
  end.

(** The test a handler makes on the current direction. *)
Definition key_guard (k : Key) (d : Vector2) : bool :=
  match k with
  | KEY_UP => negb (snd d =? 1)
  | KEY_DOWN => negb (snd d =? -1)
  | KEY_LEFT => negb (fst d =? 1)
  | KEY_RIGHT => negb (fst d =? -1)
  end.

(** One [if (IsKeyPressed(..) && guard) { direction = ..; running = true; }];
    [WaitTime] only delays the frame. *)
Definition direction_key (pressed : bool) (k : Key) (g : Game) : Game :=
  if pressed && key_guard k (direction (snake g))
  then set_running true (set_snake (set_direction (key_direction k) (snake g)) g)
  else g.

(** The body of the [while] of [main]; the boolean returned is [exit]. *)
Definition frame (fuel : nat) (inp : Input) (g0 : Game) : M (Game * bool) :=
  let g := if enter_pressed inp && negb (running g0)
           then set_game_over false (set_running true g0)
           else g0 in
  if game_over g
  then
    ret (if restart_clicked inp
         then set_running true (set_game_over false g)
         else g, false)
  else if negb (running g) && negb (game_over g)
  then
    if exit_clicked inp then ret (g, true)
    else if start_clicked inp then ret (set_running true g, false)
    else ret (g, false)
  else
    t <- EventTriggered (now inp) (speed g) ;;
    g1 <- (if t then Update fuel g else ret g) ;;
    ret (direction_key (right_pressed inp) KEY_RIGHT
           (direction_key (left_pressed inp) KEY_LEFT
              (direction_key (down_pressed inp) KEY_DOWN
                 (direction_key (up_pressed inp) KEY_UP g1))), false).

(** The globals as the program initialises them. *)
Definition Env0 : Env := mkEnv 0 0 0%float 0 [].

(** The states of the game: the one [Game::Game()] builds, and every state a
    frame, a tick or a round end leads to. *)
Inductive reachable : Game -> Env -> Prop :=
| reach_new fuel g e :
    Game_new fuel Env0 = Ok (g, e) -> reachable g e
| reach_frame fuel inp g e g' ex e' :
    reachable g e -> frame fuel inp g e = Ok ((g', ex), e') -> reachable g' e'
| reach_tick fuel g e g' e' :
    reachable g e -> Update fuel g e = Ok (g', e') -> reachable g' e'
| reach_end fuel g e g' e' :
    reachable g e -> GameOver fuel g e = Ok (g', e') -> reachable g' e'.

(** ** Predicates used in the statements *)

Definition in_grid (c : Vector2) : Prop :=
  0 <= fst c < cellcount /\ 0 <= snd c < cellcount.

(** The test of [CheckCollisionWithEdges] on a head cell. *)
Definition head_out (c : Vector2) : bool :=
  (fst c =? cellcount) || (fst c =? -1) || (snd c =? cellcount) || (snd c =? -1).

Definition opposite (d : Vector2) : Vector2 := (- fst d, - snd d).

Definition unit_direction (d : Vector2) : Prop :=
  d = (1, 0) \/ d = (-1, 0) \/ d = (0, 1) \/ d = (0, -1).

Definition set_cursor (c : nat) (e : Env) : Env :=
  mkEnv (high_score e) (temp_score e) (lastUpdateTime e) c (played e).

(** The cell made of the two draws at cursor [c] and [c + 1]. *)
Definition candidate (c : nat) : Vector2 :=
  (rand c mod cellcount, rand (S c) mod cellcount).

(** The cursor of the first candidate outside [snakeBody], among the one at
    [c] and the [fuel] that follow it. *)
Fixpoint first_free (fuel : nat) (snakeBody : list Vector2) (c : nat) : option nat :=
  if ElementInDeque (candidate c) snakeBody
  then match fuel with
       | O => None
       | S fuel' => first_free fuel' snakeBody (S (S c))
       end
  else Some c.

(** The stream offers a free cell within [fuel] resamplings wherever the
    search starts. *)
Definition fair (fuel : nat) (snakeBody : list Vector2) : Prop :=
  forall c, first_free fuel snakeBody c <> None.

(** Number of fruits on the cell [c]. *)
Definition fruits_on (c : Vector2) (fs : list Food) : nat :=
  length (filter (fun f => Vector2Equals c (position f)) fs).

(** Number of [wall] sounds in a log. *)
Definition wall_count (l : list Sound) : nat :=
  length (filter (Sound_eqb wall) l).

(** A fruit in the grid and off the body. *)
Definition fruit_ok (snakeBody : list Vector2) (f : Food) : Prop :=
  in_grid (position f) /\ ElementInDeque (position f) snakeBody = false.

(** What [GameOver] followed by the wall sound does. *)
Definition end_round (fuel : nat) (g : Game) : M Game :=
  g' <- GameOver fuel g ;; PlaySound wall ;;; ret g'.

(** The game and the environment after the snake has moved and the fruits on
    the new head, [k] of them, have been eaten. *)
Definition fed (g : Game) (e : Env) (head : Vector2) (rest : list Vector2)
    (fs1 : list Food) (c1 : nat) : Game * Env :=
  let head1 := Vector2Add head (direction (snake g)) in
  let rest1 := if addSegment (snake g) then head :: rest
               else removelast (head :: rest) in
  let k := fruits_on head1 (fruits g) in
  (mkGame (score g + Z.of_nat k) (Nat.iter k speed_up (speed g)) true
     (game_over g) (mkSnake (0 <? k)%nat (head1 :: rest1) (direction (snake g)))
     fs1,
   mkEnv (high_score e) (temp_score e) (lastUpdateTime e) c1
     (repeat eat k ++ played e)).

(** The interval after [n] eats of a round: [0.2] sped up [n] times. *)
Definition speed_after (n : nat) : float := Nat.iter n speed_up 0.2%float.

(** [0.2] multiplied [n] times by [0.98], in double arithmetic. *)
Definition scaled (n : nat) : float :=
  Nat.iter n (fun v => PrimFloat.mul v 0.98%float) 0.2%float.

(** What holds of the game between ticks. *)
Record Inv (g : Game) : Prop := mkInv {
  inv_body : body (snake g) <> [];
  inv_dir : unit_direction (direction (snake g));
  inv_fruits : forall f, In f (fruits g) ->
      in_grid (position f) /\ ElementInDeque (position f) (body (snake g)) = false;
  inv_score : 0 <= score g;
  inv_speed : speed g = speed_after (Z.to_nat (score g))
}.

(** * Properties *)

(** ** The monad *)

Lemma bind_Ok {A B : Type} (m : M A) (k : A -> M B) (e : Env) (r : B * Env) :
  bind m k e = Ok r -> exists a e1, m e = Ok (a, e1) /\ k a e1 = Ok r.
Proof.
  unfold bind. destruct (m e) as [[a e1]| |]; try discriminate.
  intros H. exists a, e1. split; [reflexivity | exact H].
Qed.

Lemma ret_Ok {A : Type} (a : A) (e : Env) (r : A * Env) :
  ret a e = Ok r -> r = (a, e).
Proof. unfold ret. intros H. injection H as <-. reflexivity. Qed.

Lemma lift_Ok {A : Type} (x : result A) (e : Env) (r : A * Env) :
  lift x e = Ok r -> x = Ok (fst r) /\ snd r = e.
Proof.
  unfold lift. destruct x; try discriminate.
  intros H. injection H as <-. split; reflexivity.
Qed.

(** Splits a successful run of [x <- m ;; k]: [H1] is the run of [m], with
    result [a] and state [e1], and [H] becomes the run of [k]. *)
Ltac bind_inv H a e1 H1 :=
  apply bind_Ok in H; destruct H as (a & e1 & H1 & H).

(** ** Cells *)

Lemma Vector2Equals_eq (p q : Vector2) : Vector2Equals p q = true <-> p = q.
Proof.
  unfold Vector2Equals. destruct p as [px py], q as [qx qy]. simpl.
  rewrite andb_true_iff, !Z.eqb_eq. split.
  - intros [-> ->]. reflexivity.
  - intros H. injection H as -> ->. split; reflexivity.
Qed.

Lemma ElementInDeque_In (c : Vector2) (l : list Vector2) :
  ElementInDeque c l = true <-> In c l.
Proof.
  induction l as [|d l IH]; simpl.
  - split; [discriminate | contradiction].
  - destruct (Vector2Equals d c) eqn:E.
    + apply Vector2Equals_eq in E. split; auto.
    + rewrite IH. split; [auto | intros [H | H]; [|exact H]].
      apply Vector2Equals_eq in H. congruence.
Qed.

Lemma ElementInDeque_false (c : Vector2) (l : list Vector2) :
  ElementInDeque c l = false <-> ~ In c l.
Proof.
  rewrite <- ElementInDeque_In. destruct (ElementInDeque c l); split; congruence.
Qed.

Lemma In_removelast {A : Type} (l : list A) (a : A) : In a (removelast l) -> In a l.
Proof.
  induction l as [|b l IH]; simpl; [auto|].
  destruct l as [|c l]; simpl in *; [contradiction|].
  intros [H | H]; auto.
Qed.

Lemma removelast_cons_length {A : Type} (a : A) (l : list A) :
  length (removelast (a :: l)) = length l.
Proof.
  revert a. induction l as [|b l IH]; intros a; [reflexivity|].
  change (S (length (removelast (b :: l))) = S (length l)).
  f_equal. apply IH.
Qed.

Lemma candidate_in_grid (c : nat) : in_grid (candidate c).
Proof.
  unfold in_grid, candidate, cellcount. simpl.
  split; apply Z.mod_pos_bound; lia.
Qed.

(** ** The resampling loop *)

Lemma GenerateRandomCell_eq (e : Env) :
  GenerateRandomCell e =
  Ok (candidate (rand_cursor e), set_cursor (S (S (rand_cursor e))) e).
Proof. reflexivity. Qed.

Lemma resample_eq (snakeBody : list Vector2) (fuel : nat) :
  forall c e,
    resample fuel snakeBody (candidate c) (set_cursor (S (S c)) e) =
    match first_free fuel snakeBody c with
    | Some c' => Ok (candidate c', set_cursor (S (S c')) e)
    | None => Diverges
    end.
Proof.
  induction fuel as [|fuel IH]; intros c e; simpl;
    destruct (ElementInDeque (candidate c) snakeBody); try reflexivity.
  unfold bind. rewrite GenerateRandomCell_eq. simpl rand_cursor.
  exact (IH (S (S c)) e).
Qed.

(** [GenerateRandomPos] returns the first candidate of the stream that is
    outside the body, and does not return when the fuel brings none. *)
Lemma GenerateRandomPos_eq (fuel : nat) (snakeBody : list Vector2) (e : Env) :
  GenerateRandomPos fuel snakeBody e =
  match first_free fuel snakeBody (rand_cursor e) with
  | Some c => Ok (candidate c, set_cursor (S (S c)) e)
  | None => Diverges
  end.
Proof.
  unfold GenerateRandomPos, bind. rewrite GenerateRandomCell_eq.
  apply resample_eq.
Qed.

Lemma first_free_Some (fuel : nat) (snakeBody : list Vector2) :
  forall c c', first_free fuel snakeBody c = Some c' ->
    ElementInDeque (candidate c') snakeBody = false /\ (c <= c')%nat.
Proof.
  induction fuel as [|fuel IH]; intros c c'; simpl;
    destruct (ElementInDeque (candidate c) snakeBody) eqn:E; try discriminate.
  - intros H. injection H as <-. auto.
  - intros H. apply IH in H. destruct H. split; [assumption | lia].
  - intros H. injection H as <-. auto.
Qed.

(** A free candidate [k] resamplings ahead, with [k] within the fuel, is
    enough for the search to succeed. *)
Lemma first_free_hit (snakeBody : list Vector2) (k : nat) :
  forall fuel c, (k <= fuel)%nat ->
    ElementInDeque (candidate (c + 2 * k)) snakeBody = false ->
    first_free fuel snakeBody c <> None.
Proof.
  induction k as [|k IH]; intros fuel c Hk Hfree.
  - replace (c + 2 * 0)%nat with c in Hfree by lia.
    destruct fuel; simpl; rewrite Hfree; discriminate.
  - destruct fuel as [|fuel]; [lia|]. simpl.
    destruct (ElementInDeque (candidate c) snakeBody); [|discriminate].
    apply IH; [lia|].
    replace (S (S c) + 2 * k)%nat with (c + 2 * S k)%nat by lia. exact Hfree.
Qed.

Lemma GenerateRandomPos_Ok (fuel : nat) (snakeBody : list Vector2) (e : Env)
    (p : Vector2) (e' : Env) :
  GenerateRandomPos fuel snakeBody e = Ok (p, e') ->
  in_grid p /\ ElementInDeque p snakeBody = false /\
  exists c, e' = set_cursor c e.
Proof.
  rewrite GenerateRandomPos_eq.
  destruct (first_free fuel snakeBody (rand_cursor e)) as [c|] eqn:E; [|discriminate].
  intros H. injection H as <- <-. apply first_free_Some in E.
  split; [apply candidate_in_grid|]. split; [apply E|]. eexists. reflexivity.
Qed.

Lemma GenerateRandomPos_fair (fuel : nat) (snakeBody : list Vector2) (e : Env) :
  fair fuel snakeBody ->
  exists p e', GenerateRandomPos fuel snakeBody e = Ok (p, e').
Proof.
  intros Hfair. rewrite GenerateRandomPos_eq.
  specialize (Hfair (rand_cursor e)).
  destruct (first_free fuel snakeBody (rand_cursor e)); [|congruence].
  eexists. eexists. reflexivity.
Qed.

(** ** Spawning fruits *)

Lemma Food_new_Ok (fuel : nat) (snakeBody : list Vector2) (e : Env)
    (f : Food) (e' : Env) :
  Food_new fuel snakeBody e = Ok (f, e') ->
  fruit_ok snakeBody f /\ exists c, e' = set_cursor c e.
Proof.
  unfold Food_new. intros H.
  bind_inv H ti e1 Hti. bind_inv H p e2 Hp.
  apply ret_Ok in H. injection H as -> ->.
  unfold GetRandomValue in Hti. injection Hti as <- <-.
  apply GenerateRandomPos_Ok in Hp. destruct Hp as (Hg & Hf & c & ->).
  split; [split; assumption|]. exists c. reflexivity.
Qed.

Lemma Food_new_fair (fuel : nat) (snakeBody : list Vector2) (e : Env) :
  fair fuel snakeBody -> exists f e', Food_new fuel snakeBody e = Ok (f, e').
Proof.
  intros Hfair. unfold Food_new, bind. simpl.
  match goal with
  | |- context [GenerateRandomPos fuel snakeBody ?e1] =>
      destruct (GenerateRandomPos_fair fuel snakeBody e1 Hfair) as (p & e2 & ->)
  end.
  eexists. eexists. reflexivity.
Qed.

Lemma push_fruits_Ok (fuel : nat) (snakeBody : list Vector2) (n : nat) :
  forall fs e fs' e',
    push_fruits fuel n snakeBody fs e = Ok (fs', e') ->
    exists new, fs' = fs ++ new /\ length new = n /\
      (forall f, In f new -> fruit_ok snakeBody f) /\
      exists c, e' = set_cursor c e.
Proof.
  induction n as [|n IH]; intros fs e fs' e' H; simpl in H.
  - apply ret_Ok in H. injection H as <- <-. exists []. rewrite app_nil_r.
    split; [reflexivity|]. split; [reflexivity|]. split; [intros f []|].
    exists (rand_cursor e'). destruct e'; reflexivity.
  - apply bind_Ok in H. destruct H as (f & e1 & Hf & H).
    apply Food_new_Ok in Hf. destruct Hf as (Hok & c1 & ->).
    apply IH in H. destruct H as (new & -> & Hlen & Hall & c & ->).
    exists (f :: new). rewrite <- app_assoc. simpl.
    split; [reflexivity|]. split; [congruence|]. split.
    + intros f' [<- | Hin]; [exact Hok | apply Hall, Hin].
    + exists c. reflexivity.
Qed.

Lemma push_fruits_fair (fuel : nat) (snakeBody : list Vector2) (n : nat) :
  fair fuel snakeBody ->
  forall fs e, exists fs' e', push_fruits fuel n snakeBody fs e = Ok (fs', e').
Proof.
  intros Hfair. induction n as [|n IH]; intros fs e; simpl.
  - eexists. eexists. reflexivity.
  - destruct (Food_new_fair fuel snakeBody e Hfair) as (f & e1 & Hf).
    unfold bind. rewrite Hf. apply IH.
Qed.

(** ** The end of a round *)

(** The game and the globals [GameOver] leaves, given the fruits spawned. *)
Lemma GameOver_Ok (fuel : nat) (g : Game) (e : Env) (g' : Game) (e' : Env) :
  GameOver fuel g e = Ok (g', e') ->
  exists fs c,
    g' = mkGame 0 0.2%float false true (Snake_Reset (snake g)) fs /\
    length fs = 3%nat /\
    (forall f, In f fs -> fruit_ok initial_body f) /\
    e' = mkEnv (Z.max (high_score e) (score g)) (score g) (lastUpdateTime e)
               c (played e).
Proof.
  unfold GameOver. intros H. apply bind_Ok in H. destruct H as (fs & e1 & Hp & H).
  apply push_fruits_Ok in Hp. destruct Hp as (new & -> & Hlen & Hall & c & ->).
  simpl in H. injection H as <- <-. exists new, c.
  split; [reflexivity|]. split; [assumption|]. split; [assumption|].
  simpl. f_equal. destruct (Z.leb_spec (high_score e) (score g)); lia.
Qed.

Lemma GameOver_fair (fuel : nat) (g : Game) (e : Env) :
  fair fuel initial_body -> exists g' e', GameOver fuel g e = Ok (g', e').
Proof.
  intros Hfair. unfold GameOver, bind.
  cbn [body snake set_snake Snake_Reset set_game_over].
  destruct (push_fruits_fair fuel initial_body 3 Hfair [] e) as (fs & e1 & ->).
  eexists. eexists. reflexivity.
Qed.

(** [GameOver] never looks at the fruits it is about to clear. *)
Lemma GameOver_clears (fuel : nat) (g : Game) (fs0 : list Food) (e : Env) :
  GameOver fuel (set_fruits fs0 g) e = GameOver fuel g e.
Proof. reflexivity. Qed.

(** ** The terminal checks *)

Lemma end_round_Ok (fuel : nat) (g : Game) (e : Env) (g' : Game) (e' : Env) :
  end_round fuel g e = Ok (g', e') ->
  exists e1, GameOver fuel g e = Ok (g', e1) /\
    e' = mkEnv (high_score e1) (temp_score e1) (lastUpdateTime e1)
               (rand_cursor e1) (wall :: played e1).
Proof.
  unfold end_round. intros H. bind_inv H g1 e1 Hg. bind_inv H u e2 Hp.
  unfold PlaySound in Hp. injection Hp as _ <-.
  apply ret_Ok in H. injection H as -> ->.
  exists e1. split; [exact Hg | reflexivity].
Qed.

(** [CheckCollisionWithEdges] ends the round once when a head coordinate is
    [-1] or [cellcount], and otherwise does nothing: after the first
    [GameOver] the head is the reset one, which the second test passes. *)
Lemma CheckCollisionWithEdges_eq (fuel : nat) (g : Game) (e : Env)
    (head : Vector2) (rest : list Vector2) :
  body (snake g) = head :: rest ->
  CheckCollisionWithEdges fuel g e =
    if head_out head then end_round fuel g e else Ok (g, e).
Proof.
  intros Hb. unfold CheckCollisionWithEdges, head_out. rewrite Hb.
  destruct ((fst head =? cellcount) || (fst head =? -1)) eqn:Ex.
  - cbn [orb]. fold (end_round fuel g).
    unfold bind at 1.
    destruct (end_round fuel g e) as [[g1 e1]| |] eqn:Eg; try reflexivity.
    apply end_round_Ok in Eg. destruct Eg as (e0 & Hg & _).
    apply GameOver_Ok in Hg. destruct Hg as (fs & c & -> & _). reflexivity.
  - cbn [orb]. unfold bind at 1, ret at 1. rewrite Hb.
    destruct ((snd head =? cellcount) || (snd head =? -1)); reflexivity.
Qed.

Lemma CheckCollisionsWithTail_eq (fuel : nat) (g : Game) (e : Env)
    (head : Vector2) (rest : list Vector2) :
  body (snake g) = head :: rest ->
  CheckCollisionsWithTail fuel g e =
    if ElementInDeque head rest then end_round fuel g e else Ok (g, e).
Proof.
  intros Hb. unfold CheckCollisionsWithTail. rewrite Hb.
  destruct (ElementInDeque head rest); reflexivity.
Qed.

Lemma head_out_iff (c : Vector2) :
  head_out c = true <->
  fst c = -1 \/ fst c = cellcount \/ snd c = -1 \/ snd c = cellcount.
Proof.
  unfold head_out. rewrite !orb_true_iff, !Z.eqb_eq. tauto.
Qed.

Lemma in_grid_not_out (c : Vector2) : in_grid c -> head_out c = false.
Proof.
  intros [Hx Hy]. destruct (head_out c) eqn:E; [|reflexivity].
  apply head_out_iff in E. unfold cellcount in *. lia.
Qed.

Lemma end_round_fair (fuel : nat) (g : Game) (e : Env) :
  fair fuel initial_body -> exists g' e', end_round fuel g e = Ok (g', e').
Proof.
  intros Hfair. destruct (GameOver_fair fuel g e Hfair) as (g' & e' & H).
  unfold end_round, bind. rewrite H. eexists. eexists. reflexivity.
Qed.

(** After the edge check has ended the round, or has passed, the tail check
    runs on what is left: the two checks together end the round at most
    once. *)
Lemma terminal_checks_eq (fuel : nat) (g : Game) (e : Env)
    (head : Vector2) (rest : list Vector2) :
  body (snake g) = head :: rest ->
  (g2 <- CheckCollisionWithEdges fuel g ;; CheckCollisionsWithTail fuel g2) e =
    if head_out head || ElementInDeque head rest
    then end_round fuel g e
    else Ok (g, e).
Proof.
  intros Hb. unfold bind at 1. rewrite (CheckCollisionWithEdges_eq fuel g e head rest Hb).
  destruct (head_out head); cbn [orb].
  - destruct (end_round fuel g e) as [[g1 e1]| |] eqn:Eg; try reflexivity.
    apply end_round_Ok in Eg. destruct Eg as (e0 & Hg & _).
    apply GameOver_Ok in Hg. destruct Hg as (fs & c & -> & _). reflexivity.
  - apply CheckCollisionsWithTail_eq, Hb.
Qed.

(** ** Eating *)

Lemma eat_fruit_miss (fuel : nat) (f : Food) (g : Game) (e : Env)
    (head : Vector2) (rest : list Vector2) :
  body (snake g) = head :: rest ->
  Vector2Equals head (position f) = false ->
  eat_fruit fuel f g e = Ok ((f, g), e).
Proof. intros Hb Hm. unfold eat_fruit. rewrite Hb, Hm. reflexivity. Qed.

Lemma eat_fruit_hit (fuel : nat) (f : Food) (g : Game) (e : Env)
    (head : Vector2) (rest : list Vector2) (r : Food * Game) (e' : Env) :
  body (snake g) = head :: rest ->
  Vector2Equals head (position f) = true ->
  eat_fruit fuel f g e = Ok (r, e') ->
  fruit_ok (body (snake g)) (fst r) /\
  snd r = mkGame (score g + 1) (speed_up (speed g)) (running g) (game_over g)
            (set_addSegment true (snake g)) (fruits g) /\
  score g < INT_MAX /\
  exists c, e' = mkEnv (high_score e) (temp_score e) (lastUpdateTime e) c
                       (eat :: played e).
Proof.
  intros Hb Hm. unfold eat_fruit. rewrite Hb, Hm, <- Hb. intros H.
  bind_inv H p e1 Hp. bind_inv H ti e2 Hti. bind_inv H n e3 Hn.
  bind_inv H u e4 Hs.
  apply GenerateRandomPos_Ok in Hp. destruct Hp as (Hg & Hf & c & ->).
  unfold GetRandomValue in Hti. injection Hti as <- <-.
  apply lift_Ok in Hn. cbn [fst snd] in Hn. destruct Hn as [Hn ->].
  unfold PlaySound in Hs. injection Hs as _ <-.
  unfold int_incr in Hn. destruct (Z.ltb_spec (score g) INT_MAX); [|discriminate].
  injection Hn as <-.
  apply ret_Ok in H. injection H as -> ->.
  split; [split; assumption|]. split; [reflexivity|]. split; [assumption|].
  eexists. reflexivity.
Qed.

Lemma game_eta (g : Game) :
  g = mkGame (score g) (speed g) (running g) (game_over g)
        (mkSnake (addSegment (snake g)) (body (snake g)) (direction (snake g)))
        (fruits g).
Proof. destruct g as [sc sp r go [a b d] fs]. reflexivity. Qed.

Lemma fruits_on_cons (c : Vector2) (f : Food) (fs : list Food) :
  fruits_on c (f :: fs) =
  if Vector2Equals c (position f) then S (fruits_on c fs) else fruits_on c fs.
Proof.
  unfold fruits_on. simpl. destruct (Vector2Equals c (position f)); reflexivity.
Qed.

Lemma repeat_app_cons {A : Type} (a : A) (n : nat) (l : list A) :
  repeat a n ++ a :: l = a :: repeat a n ++ l.
Proof. induction n as [|n IH]; simpl; [reflexivity | rewrite IH; reflexivity]. Qed.

(** The loop over the fruits: every fruit on the head cell is respawned off
    the body, and each of them adds one to the score, one speed step and one
    eat sound; the growth flag is set when there is at least one. *)
Lemma for_fruits_Ok (fuel : nat) (head : Vector2) (rest : list Vector2)
    (fs : list Food) :
  forall g e fs' g' e',
    body (snake g) = head :: rest ->
    for_fruits fuel fs g e = Ok ((fs', g'), e') ->
    g' = mkGame (score g + Z.of_nat (fruits_on head fs))
           (Nat.iter (fruits_on head fs) speed_up (speed g))
           (running g) (game_over g)
           (mkSnake (addSegment (snake g) || (0 <? fruits_on head fs)%nat)
                    (head :: rest) (direction (snake g)))
           (fruits g) /\
    length fs' = length fs /\
    (forall f', In f' fs' ->
       (In f' fs /\ Vector2Equals head (position f') = false) \/
       fruit_ok (head :: rest) f') /\
    exists c, e' = mkEnv (high_score e) (temp_score e) (lastUpdateTime e) c
                         (repeat eat (fruits_on head fs) ++ played e).
Proof.
  induction fs as [|f fs IH]; intros g e fs' g' e' Hb H; simpl in H.
  - apply ret_Ok in H. injection H as -> -> ->. unfold fruits_on. simpl.
    rewrite Z.add_0_r, orb_false_r, <- Hb.
    split; [apply game_eta|]. split; [reflexivity|]. split; [intros f' []|].
    exists (rand_cursor e). destruct e; reflexivity.
  - bind_inv H r e1 Hr. bind_inv H r' e2 Hr'.
    apply ret_Ok in H. injection H as -> -> ->.
    rewrite fruits_on_cons.
    destruct (Vector2Equals head (position f)) eqn:Em.
    + destruct (eat_fruit_hit fuel f g e head rest r e1 Hb Em Hr)
        as (Hok & Hg1 & _ & c1 & ->).
      destruct r as [f1 g1]. destruct r' as [fs1 g2]. cbn [fst snd] in *. subst g1.
      apply IH in Hr'; [|exact Hb].
      destruct Hr' as (-> & Hlen & Hall & c & ->).
      cbn [score speed running game_over snake fruits addSegment body direction
           set_addSegment high_score temp_score lastUpdateTime played orb].
      split; [|split; [|split]].
      * rewrite orb_true_r, Nat.iter_succ_r, Nat2Z.inj_succ.
        f_equal. lia.
      * simpl. congruence.
      * intros f' [<- | Hin]; [right; rewrite <- Hb; exact Hok|].
        destruct (Hall f' Hin) as [[Hin' Hm] | Hfresh]; [left | right]; auto.
        split; [right; exact Hin' | exact Hm].
      * exists c. rewrite repeat_app_cons. reflexivity.
    + rewrite (eat_fruit_miss fuel f g e head rest Hb Em) in Hr.
      injection Hr as <- <-. destruct r' as [fs1 g2]. cbn [fst snd] in *.
      apply IH in Hr'; [|exact Hb].
      destruct Hr' as (-> & Hlen & Hall & c & ->).
      split; [reflexivity|]. split; [simpl; congruence|]. split.
      * intros f' [<- | Hin]; [left; split; [left; reflexivity | exact Em]|].
        destruct (Hall f' Hin) as [[Hin' Hm] | Hfresh]; [left | right]; auto.
        split; [right; exact Hin' | exact Hm].
      * exists c. reflexivity.
Qed.

(** ** One tick *)

Lemma Snake_Update_eq (s : Snake) (head : Vector2) (rest : list Vector2) :
  body s = head :: rest ->
  Snake_Update s =
    Ok (mkSnake false
          (Vector2Add head (direction s) ::
             (if addSegment s then head :: rest else removelast (head :: rest)))
          (direction s)).
Proof.
  intros Hb. unfold Snake_Update. rewrite Hb.
  destruct (addSegment s); reflexivity.
Qed.

(** A tick of a running game: the move, the meal, and then at most one end
    of round, taken when the new head is out of the grid or on the body. *)
Lemma Update_Ok (fuel : nat) (g : Game) (e : Env) (head : Vector2)
    (rest : list Vector2) (g' : Game) (e' : Env) :
  running g = true ->
  body (snake g) = head :: rest ->
  Update fuel g e = Ok (g', e') ->
  let head1 := Vector2Add head (direction (snake g)) in
  let rest1 := if addSegment (snake g) then head :: rest
               else removelast (head :: rest) in
  exists fs1 c1,
    length fs1 = length (fruits g) /\
    (forall f', In f' fs1 ->
       (In f' (fruits g) /\ Vector2Equals head1 (position f') = false) \/
       fruit_ok (head1 :: rest1) f') /\
    (if head_out head1 || ElementInDeque head1 rest1
     then end_round fuel (fst (fed g e head rest fs1 c1))
                    (snd (fed g e head rest fs1 c1))
     else Ok (fed g e head rest fs1 c1)) = Ok (g', e').
Proof.
  intros Hrun Hb H head1 rest1. unfold Update in H. rewrite Hrun in H.
  bind_inv H s e0 Hs. apply lift_Ok in Hs. cbn [fst snd] in Hs.
  destruct Hs as [Hs ->]. rewrite (Snake_Update_eq _ head rest Hb) in Hs.
  injection Hs as <-. fold head1 rest1 in H.
  bind_inv H g1 e1 Hfood. unfold CheckCollisionWithFood in Hfood.
  bind_inv Hfood r e2 Hloop. apply ret_Ok in Hfood. injection Hfood as -> ->.
  destruct r as [fs1 g2]. cbn [fst snd] in H.
  apply (for_fruits_Ok fuel head1 rest1) in Hloop; [|reflexivity].
  destruct Hloop as (-> & Hlen & Hall & c1 & ->).
  cbn [score speed running game_over snake fruits addSegment body direction
       set_snake orb] in H.
  rewrite (terminal_checks_eq fuel _ _ head1 rest1) in H by reflexivity.
  exists fs1, c1. split; [exact Hlen|]. split; [exact Hall|].
  rewrite Hrun in H. exact H.
Qed.

(** ** The invariant *)

Lemma speed_after_add (k n : nat) :
  Nat.iter k speed_up (speed_after n) = speed_after (n + k).
Proof.
  unfold speed_after. rewrite Nat.add_comm. symmetry. apply Nat.iter_add.
Qed.

Lemma GameOver_Inv (fuel : nat) (g : Game) (e : Env) (g' : Game) (e' : Env) :
  GameOver fuel g e = Ok (g', e') -> Inv g'.
Proof.
  intros H. apply GameOver_Ok in H. destruct H as (fs & c & -> & _ & Hall & _).
  constructor; cbn.
  - discriminate.
  - left. reflexivity.
  - exact Hall.
  - lia.
  - reflexivity.
Qed.

Lemma end_round_Inv (fuel : nat) (g : Game) (e : Env) (g' : Game) (e' : Env) :
  end_round fuel g e = Ok (g', e') -> Inv g'.
Proof.
  intros H. apply end_round_Ok in H. destruct H as (e1 & H & _).
  exact (GameOver_Inv fuel g e g' e1 H).
Qed.

Lemma Game_new_Inv (fuel : nat) (e : Env) (g : Game) (e' : Env) :
  Game_new fuel e = Ok (g, e') -> Inv g.
Proof.
  unfold Game_new. intros H. bind_inv H fs e1 Hp.
  apply ret_Ok in H. injection H as -> ->.
  apply push_fruits_Ok in Hp. destruct Hp as (new & -> & _ & Hall & _).
  constructor; cbn.
  - discriminate.
  - left. reflexivity.
  - exact Hall.
  - lia.
  - reflexivity.
Qed.

Lemma Update_Inv (fuel : nat) (g : Game) (e : Env) (g' : Game) (e' : Env) :
  Inv g -> Update fuel g e = Ok (g', e') -> Inv g'.
Proof.
  intros HI H. destruct (running g) eqn:Hrun.
  2:{ unfold Update in H. rewrite Hrun in H. apply ret_Ok in H.
      injection H as -> ->. exact HI. }
  destruct (body (snake g)) as [|head rest] eqn:Hb.
  { exfalso. exact (inv_body g HI Hb). }
  destruct (Update_Ok fuel g e head rest g' e' Hrun Hb H)
    as (fs1 & c1 & Hlen & Hall & Hend).
  cbv zeta in Hall, Hend.
  destruct (head_out _ || ElementInDeque _ _).
  { exact (end_round_Inv _ _ _ _ _ Hend). }
  injection Hend as <- <-. unfold fed. constructor; cbn [body snake direction
    fruits score speed].
  - discriminate.
  - exact (inv_dir g HI).
  - intros f' Hin. destruct (Hall f' Hin) as [[Hold Hm] | Hfresh]; [|exact Hfresh].
    destruct (inv_fruits g HI f' Hold) as [Hg Hoff]. split; [exact Hg|].
    rewrite Hb in Hoff. cbn [ElementInDeque]. rewrite Hm.
    apply ElementInDeque_false. apply ElementInDeque_false in Hoff.
    intros Hin'. apply Hoff.
    destruct (addSegment (snake g));
      [exact Hin' | exact (In_removelast (head :: rest) _ Hin')].
  - pose proof (inv_score g HI). lia.
  - rewrite (inv_speed g HI), speed_after_add. f_equal.
    pose proof (inv_score g HI). lia.
Qed.

Lemma direction_key_Inv (pressed : bool) (k : Key) (g : Game) :
  Inv g -> Inv (direction_key pressed k g).
Proof.
  intros HI. unfold direction_key.
  destruct (pressed && key_guard k (direction (snake g))); [|exact HI].
  destruct HI as [H1 H2 H3 H4 H5]. constructor; cbn; try assumption.
  unfold unit_direction. destruct k; cbn; auto.
Qed.

Lemma frame_Inv (fuel : nat) (inp : Input) (g : Game) (e : Env)
    (g' : Game) (ex : bool) (e' : Env) :
  Inv g -> frame fuel inp g e = Ok ((g', ex), e') -> Inv g'.
Proof.
  intros HI. unfold frame.
  set (g0 := if enter_pressed inp && negb (running g)
             then set_game_over false (set_running true g) else g).
  assert (HI0 : Inv g0).
  { unfold g0. destruct (enter_pressed inp && negb (running g)); [|exact HI].
    destruct HI as [H1 H2 H3 H4 H5]. constructor; assumption. }
  clearbody g0. clear HI g.
  destruct (game_over g0).
  { intros H. apply ret_Ok in H. injection H as -> _ _.
    destruct (restart_clicked inp); [|exact HI0].
    destruct HI0 as [H1 H2 H3 H4 H5]. constructor; assumption. }
  destruct (negb (running g0) && negb false).
  { destruct (exit_clicked inp); [|destruct (start_clicked inp)];
      intros H; apply ret_Ok in H; injection H as -> _ _; try exact HI0.
    destruct HI0 as [H1 H2 H3 H4 H5]. constructor; assumption. }
  intros H. bind_inv H t e1 Ht. bind_inv H g1 e2 Hu.
  apply ret_Ok in H. injection H as -> _ _.
  repeat apply direction_key_Inv.
  destruct t; [exact (Update_Inv _ _ _ _ _ HI0 Hu)|].
  apply ret_Ok in Hu. injection Hu as -> _. exact HI0.
Qed.

(** Every reachable state satisfies the invariant. *)
Lemma reachable_Inv (g : Game) (e : Env) : reachable g e -> Inv g.
Proof.
  induction 1 as [fuel g e H | fuel inp g e g' ex e' _ IH H
                 | fuel g e g' e' _ IH H | fuel g e g' e' _ IH H].
  - exact (Game_new_Inv _ _ _ _ H).
  - exact (frame_Inv _ _ _ _ _ _ _ IH H).
  - exact (Update_Inv _ _ _ _ _ IH H).
  - exact (GameOver_Inv _ _ _ _ _ H).
Qed.

(** ** Ticks return *)

Lemma eat_fruit_total (fuel : nat) (f : Food) (g : Game) (e : Env)
    (head : Vector2) (rest : list Vector2) :
  body (snake g) = head :: rest ->
  fair fuel (head :: rest) ->
  score g < INT_MAX ->
  exists r e', eat_fruit fuel f g e = Ok (r, e').
Proof.
  intros Hb Hfair Hlt. unfold eat_fruit. rewrite Hb.
  destruct (Vector2Equals head (position f)); [|eexists; eexists; reflexivity].
  unfold bind.
  destruct (GenerateRandomPos_fair fuel (head :: rest) e Hfair) as (p & e1 & ->).
  unfold GetRandomValue, lift, int_incr.
  destruct (Z.ltb_spec (score g) INT_MAX); [|lia].
  eexists. eexists. reflexivity.
Qed.

Lemma for_fruits_total (fuel : nat) (head : Vector2) (rest : list Vector2)
    (fs : list Food) :
  forall g e,
    body (snake g) = head :: rest ->
    fair fuel (head :: rest) ->
    score g + Z.of_nat (fruits_on head fs) <= INT_MAX ->
    exists r e', for_fruits fuel fs g e = Ok (r, e').
Proof.
  induction fs as [|f fs IH]; intros g e Hb Hfair Hsc; simpl.
  - eexists. eexists. reflexivity.
  - rewrite fruits_on_cons in Hsc. unfold bind at 1.
    destruct (Vector2Equals head (position f)) eqn:Em.
    + destruct (eat_fruit_total fuel f g e head rest Hb Hfair) as (r & e1 & Hr);
        [lia|].
      rewrite Hr.
      destruct (eat_fruit_hit fuel f g e head rest r e1 Hb Em Hr)
        as (_ & Hg1 & _ & _).
      destruct (IH (snd r) e1) as (r' & e2 & Hr').
      * rewrite Hg1. exact Hb.
      * exact Hfair.
      * rewrite Hg1. cbn [score]. lia.
      * unfold bind. rewrite Hr'. eexists. eexists. reflexivity.
    + rewrite (eat_fruit_miss fuel f g e head rest Hb Em). cbn [snd fst].
      destruct (IH g e Hb Hfair Hsc) as (r' & e2 & Hr').
      unfold bind. rewrite Hr'. eexists. eexists. reflexivity.
Qed.

(** A tick returns when the snake has a head, the stream offers free cells
    for the respawns within the fuel, and the score stays an int. *)
Lemma Update_total (fuel : nat) (g : Game) (e : Env) (head : Vector2)
    (rest : list Vector2) :
  body (snake g) = head :: rest ->
  let head1 := Vector2Add head (direction (snake g)) in
  let rest1 := if addSegment (snake g) then head :: rest
               else removelast (head :: rest) in
  fair fuel (head1 :: rest1) ->
  fair fuel initial_body ->
  score g + Z.of_nat (fruits_on head1 (fruits g)) <= INT_MAX ->
  exists g' e', Update fuel g e = Ok (g', e').
Proof.
  intros Hb head1 rest1 Hfair Hfair0 Hsc. unfold Update.
  destruct (running g); [|eexists; eexists; reflexivity].
  unfold bind at 1, lift. rewrite (Snake_Update_eq _ head rest Hb).
  fold head1 rest1. unfold bind at 1, CheckCollisionWithFood. unfold bind at 1.
  set (g0 := set_snake _ g).
  destruct (for_fruits_total fuel head1 rest1 (fruits g0) g0 e eq_refl Hfair Hsc)
    as ([fs1 g1] & e1 & Hloop).
  rewrite Hloop. unfold ret at 1. cbn [fst snd].
  apply for_fruits_Ok with (head := head1) (rest := rest1) in Hloop; [|reflexivity].
  destruct Hloop as (-> & _).
  rewrite (terminal_checks_eq fuel _ _ head1 rest1) by reflexivity.
  destruct (head_out head1 || ElementInDeque head1 rest1).
  - apply end_round_fair, Hfair0.
  - eexists. eexists. reflexivity.
Qed.

(** ** Collision signals *)

Lemma wall_count_eats (k : nat) (l : list Sound) :
  wall_count (repeat eat k ++ l) = wall_count l.
Proof. induction k as [|k IH]; [reflexivity | exact IH]. Qed.

(** Once the edge check has fired, the tail check finds the reset snake and
    does nothing. *)
Lemma edges_then_tail (fuel : nat) (g : Game) (e : Env) (head : Vector2)
    (rest : list Vector2) (g1 : Game) (e1 : Env) :
  body (snake g) = head :: rest ->
  head_out head = true ->
  CheckCollisionWithEdges fuel g e = Ok (g1, e1) ->
  CheckCollisionsWithTail fuel g1 e1 = Ok (g1, e1).
Proof.
  intros Hb Hout H. rewrite (CheckCollisionWithEdges_eq fuel g e head rest Hb), Hout in H.
  apply end_round_Ok in H. destruct H as (e0 & Hg & _).
  apply GameOver_Ok in Hg. destruct Hg as (fs & c & -> & _). reflexivity.
Qed.

(** A tick plays the wall sound once when it ends the round and not at all
    otherwise. *)
Lemma Update_wall_count (fuel : nat) (g : Game) (e : Env) (g' : Game) (e' : Env) :
  Update fuel g e = Ok (g', e') ->
  (wall_count (played e') <= wall_count (played e) + 1)%nat.
Proof.
  intros H. destruct (running g) eqn:Hrun.
  2:{ unfold Update in H. rewrite Hrun in H. apply ret_Ok in H.
      injection H as _ ->. lia. }
  destruct (body (snake g)) as [|head rest] eqn:Hb.
  { unfold Update, bind, lift, Snake_Update in H. rewrite Hrun, Hb in H.
    discriminate. }
  destruct (Update_Ok fuel g e head rest g' e' Hrun Hb H)
    as (fs1 & c1 & _ & _ & Hend).
  cbv zeta in Hend.
  destruct (head_out _ || ElementInDeque _ _).
  - apply end_round_Ok in Hend. destruct Hend as (e1 & Hg & ->).
    apply GameOver_Ok in Hg. destruct Hg as (fs & c & _ & _ & _ & ->).
    unfold fed. cbn [snd played].
    change (wall_count (wall :: ?l)) with (S (wall_count l)).
    rewrite wall_count_eats. lia.
  - injection Hend as _ <-. unfold fed. cbn [snd played].
    rewrite wall_count_eats. lia.
Qed.

(** ** No growth is pending when a tick ends the round *)

Lemma fruits_on_none (c : Vector2) (fs : list Food) :
  (forall f, In f fs -> position f <> c) -> fruits_on c fs = 0%nat.
Proof.
  intros H. induction fs as [|f fs IH]; [reflexivity|].
  rewrite fruits_on_cons.
  destruct (Vector2Equals c (position f)) eqn:E.
  - apply Vector2Equals_eq in E. exfalso. apply (H f); [left; reflexivity | auto].
  - apply IH. intros f' Hin. apply H. right. exact Hin.
Qed.

Lemma round_end_flag_clear (fuel : nat) (g : Game) (e : Env) (g' : Game) (e' : Env) :
  Inv g ->
  game_over g = false ->
  Update fuel g e = Ok (g', e') ->
  game_over g' = true ->
  addSegment (snake g') = false.
Proof.
  intros HI Hgo H Hover. destruct (running g) eqn:Hrun.
  2:{ unfold Update in H. rewrite Hrun in H. apply ret_Ok in H.
      injection H as -> _. congruence. }
  destruct (body (snake g)) as [|head rest] eqn:Hb.
  { exfalso. exact (inv_body g HI Hb). }
  destruct (Update_Ok fuel g e head rest g' e' Hrun Hb H)
    as (fs1 & c1 & _ & _ & Hend).
  cbv zeta in Hend.
  set (head1 := Vector2Add head (direction (snake g))) in *.
  set (rest1 := if addSegment (snake g) then head :: rest
                else removelast (head :: rest)) in *.
  destruct (head_out head1 || ElementInDeque head1 rest1) eqn:Efire.
  2:{ injection Hend as <- _. unfold fed in Hover. cbn in Hover. congruence. }
  assert (Hk : fruits_on head1 (fruits g) = 0%nat).
  { apply fruits_on_none. intros f Hin Heq.
    destruct (inv_fruits g HI f Hin) as [Hg Hoff]. rewrite Heq in Hg, Hoff.
    apply orb_true_iff in Efire. destruct Efire as [Hout | Htail].
    - rewrite (in_grid_not_out head1 Hg) in Hout. discriminate.
    - apply ElementInDeque_In in Htail. apply ElementInDeque_false in Hoff.
      apply Hoff. rewrite Hb. unfold rest1 in Htail.
      destruct (addSegment (snake g));
        [exact Htail | exact (In_removelast (head :: rest) _ Htail)]. }
  apply end_round_Ok in Hend. destruct Hend as (e1 & Hg & _).
  apply GameOver_Ok in Hg. destruct Hg as (fs & c & -> & _).
  unfold fed. cbn [fst snake Snake_Reset addSegment]. fold head1. rewrite Hk.
  reflexivity.
Qed.

End Simulation.

(** * The properties of the specification *)

(** A stream that always draws [0] (every candidate is the cell [(0,0)]) and
    one that walks over the grid. *)
Definition zero_rand : nat -> Z := fun _ => 0.
Definition walk_rand : nat -> Z := fun n => 7 * Z.of_nat n + 6.

Lemma zero_rand_fair (fuel : nat) (snakeBody : list Vector2) :
  ElementInDeque (0, 0) snakeBody = false -> fair zero_rand fuel snakeBody.
Proof.
  intros H c.
  destruct fuel; simpl; change (candidate zero_rand c) with ((0, 0) : Vector2);
    rewrite H; discriminate.
Qed.

(** ** Snake *)

(** C1: [advance()] ([Snake::Update]) puts the old head plus the direction at
    the front of the body; with the pending-growth flag set it clears the flag
    and removes nothing, so the length grows by exactly one; with the flag
    clear it removes the last cell, so the length is unchanged.  From
    [(6,9),(5,9),(4,9)] heading [(1,0)] with no growth pending, one advance
    gives [(7,9),(6,9),(5,9)]. *)
Theorem advance_spec (grow : bool) (head : Vector2) (rest : list Vector2)
    (d : Vector2) :
  Snake_Update (mkSnake grow (head :: rest) d) =
    Ok (mkSnake false
          (Vector2Add head d ::
             (if grow then head :: rest else removelast (head :: rest)))
          d) /\
  length (Vector2Add head d ::
            (if grow then head :: rest else removelast (head :: rest))) =
    (if grow then S (length (head :: rest)) else length (head :: rest)) /\
  Snake_Update (mkSnake false [(6, 9); (5, 9); (4, 9)] (1, 0)) =
    Ok (mkSnake false [(7, 9); (6, 9); (5, 9)] (1, 0)).
Proof.
  split; [|split].
  - unfold Snake_Update. simpl. destruct grow; reflexivity.
  - destruct grow; [reflexivity|].
    cbn [length]. f_equal. apply removelast_cons_length.
  - reflexivity.
Qed.

(** C7, as the code has it: [reset()] ([Snake::Reset]) restores the body
    [(6,9),(5,9),(4,9)] and the direction [(1,0)] and leaves the
    pending-growth flag as it was, so the first advance after a reset
    lengthens the snake exactly when the flag was set before the reset. *)
Theorem reset_spec (s : Snake) :
  body (Snake_Reset s) = [(6, 9); (5, 9); (4, 9)] /\
  direction (Snake_Reset s) = (1, 0) /\
  addSegment (Snake_Reset s) = addSegment s /\
  Snake_Update (Snake_Reset s) =
    Ok (mkSnake false
          (if addSegment s then [(7, 9); (6, 9); (5, 9); (4, 9)]
           else [(7, 9); (6, 9); (5, 9)])
          (1, 0)).
Proof.
  repeat split. unfold Snake_Update, Snake_Reset. simpl.
  destruct (addSegment s); reflexivity.
Qed.

(** C7 as stated fails: a snake that has just eaten has the flag set; after
    [reset()] the flag is still set and the next advance yields four cells. *)
Lemma reset_keeps_pending_growth :
  addSegment (Snake_Reset (mkSnake true [(8, 9); (7, 9); (6, 9)] (1, 0))) = true /\
  Snake_Update (Snake_Reset (mkSnake true [(8, 9); (7, 9); (6, 9)] (1, 0))) =
    Ok (mkSnake false [(7, 9); (6, 9); (5, 9); (4, 9)] (1, 0)).
Proof. split; reflexivity. Qed.

(** C6: a direction key whose vector is the exact opposite of the current
    direction changes nothing; any other direction key makes its vector the
    direction, which the next advance adds to the head.  With direction
    [(1,0)], the key for [(-1,0)] leaves [(1,0)]. *)
Theorem setDirection_spec (k : Key) (g : Game) :
  unit_direction (direction (snake g)) ->
  (key_direction k = opposite (direction (snake g)) ->
     direction_key true k g = g) /\
  (key_direction k <> opposite (direction (snake g)) ->
     direction (snake (direction_key true k g)) = key_direction k /\
     body (snake (direction_key true k g)) = body (snake g) /\
     forall head rest, body (snake g) = head :: rest ->
       exists s', Snake_Update (snake (direction_key true k g)) = Ok s' /\
                  hd head (body s') = Vector2Add head (key_direction k)).
Proof.
  intros Hd. unfold direction_key. simpl.
  destruct (snake g) as [grow cells d] eqn:Es. simpl in *.
  assert (Hg : key_guard k d = false <-> key_direction k = opposite d).
  { destruct Hd as [-> | [-> | [-> | ->]]]; destruct k; simpl;
      split; intros H; try reflexivity; try discriminate. }
  split.
  - intros Hop. apply Hg in Hop. rewrite Hop. reflexivity.
  - intros Hop. destruct (key_guard k d) eqn:Ek.
    + simpl. split; [reflexivity|]. split; [reflexivity|].
      intros head rest ->. unfold Snake_Update. simpl.
      destruct grow; eexists; split; reflexivity.
    + exfalso. apply Hop, Hg. reflexivity.
Qed.

Lemma setDirection_witness :
  direction_key true KEY_LEFT
    (mkGame 0 0.2%float true false (mkSnake false [(6, 9); (5, 9); (4, 9)] (1, 0)) []) =
  mkGame 0 0.2%float true false (mkSnake false [(6, 9); (5, 9); (4, 9)] (1, 0)) [].
Proof.
  apply (setDirection_spec KEY_LEFT
           (mkGame 0 0.2%float true false
              (mkSnake false [(6, 9); (5, 9); (4, 9)] (1, 0)) [])).
  - left. reflexivity.
  - reflexivity.
Defined.

(** The handlers run one after the other within a frame, each against the
    direction the previous one left: up and left pressed together take a
    snake heading [(1,0)] to [(-1,0)]. *)
Example two_keys_one_frame :
  direction
    (snake
       (direction_key true KEY_LEFT
          (direction_key true KEY_UP
             (mkGame 0 0.2%float true false Snake_new [])))) = (-1, 0).
Proof. reflexivity. Qed.

(** ** Food *)

(** C4: [GenerateRandomPos] (spawn and respawn) never returns a cell of the
    occupied set it is given: whenever the resampling loop ends, the cell
    returned is a grid cell outside the body.  The loop ends as soon as the
    stream draws a free cell; when the occupied set leaves a grid cell free
    there is a stream on which it ends at once, and when the occupied set
    covers the grid it never ends. *)
Theorem spawn_avoids_occupied (occupied : list Vector2) :
  (forall rand fuel e p e',
      GenerateRandomPos rand fuel occupied e = Ok (p, e') ->
      in_grid p /\ ~ In p occupied) /\
  (forall rand fuel e k,
      (k <= fuel)%nat ->
      ~ In (candidate rand (rand_cursor e + 2 * k)) occupied ->
      exists p e', GenerateRandomPos rand fuel occupied e = Ok (p, e') /\
                   in_grid p /\ ~ In p occupied) /\
  ((exists c, in_grid c /\ ~ In c occupied) ->
      forall fuel e, exists rand p e',
        GenerateRandomPos rand fuel occupied e = Ok (p, e') /\
        in_grid p /\ ~ In p occupied) /\
  ((forall c, in_grid c -> In c occupied) ->
      forall rand fuel e, GenerateRandomPos rand fuel occupied e = Diverges).
Proof.
  assert (Hpart : forall rand fuel e p e',
             GenerateRandomPos rand fuel occupied e = Ok (p, e') ->
             in_grid p /\ ~ In p occupied).
  { intros rand fuel e p e' H. apply GenerateRandomPos_Ok in H.
    destruct H as (Hg & Hf & _). split; [exact Hg|].
    apply ElementInDeque_false, Hf. }
  assert (Hhit : forall rand fuel e k,
             (k <= fuel)%nat ->
             ~ In (candidate rand (rand_cursor e + 2 * k)) occupied ->
             exists p e', GenerateRandomPos rand fuel occupied e = Ok (p, e') /\
                          in_grid p /\ ~ In p occupied).
  { intros rand fuel e k Hk Hfree.
    apply ElementInDeque_false in Hfree.
    pose proof (first_free_hit rand occupied k fuel (rand_cursor e) Hk Hfree) as Hne.
    pose proof (GenerateRandomPos_eq rand fuel occupied e) as Heq.
    destruct (first_free rand fuel occupied (rand_cursor e)) as [c|]; [|congruence].
    eexists. eexists. split; [exact Heq|]. apply (Hpart rand fuel e _ _ Heq). }
  split; [exact Hpart|]. split; [exact Hhit|]. split.
  - intros (c & Hg & Hfree) fuel e.
    exists (fun n => if Nat.eqb n (rand_cursor e) then fst c else snd c).
    apply (Hhit _ fuel e 0%nat); [lia|].
    replace (rand_cursor e + 2 * 0)%nat with (rand_cursor e) by lia.
    unfold candidate. rewrite Nat.eqb_refl.
    replace (Nat.eqb (S (rand_cursor e)) (rand_cursor e)) with false
      by (symmetry; apply Nat.eqb_neq; lia).
    destruct Hg as [Hx Hy].
    rewrite (Z.mod_small (fst c)), (Z.mod_small (snd c)) by assumption.
    destruct c; exact Hfree.
  - intros Hfull rand fuel e. rewrite GenerateRandomPos_eq.
    destruct (first_free rand fuel occupied (rand_cursor e)) as [c|] eqn:E;
      [|reflexivity].
    apply first_free_Some in E. destruct E as [E _].
    apply ElementInDeque_false in E. exfalso. apply E, Hfull, candidate_in_grid.
Qed.

Lemma spawn_avoids_occupied_witness :
  in_grid (9, 16) /\ ~ In (9, 16) [(6, 13); (20, 2)].
Proof.
  apply (proj1 (spawn_avoids_occupied [(6, 13); (20, 2)])
           walk_rand 2%nat Env0 (9, 16) (set_cursor 6 Env0)).
  vm_compute. reflexivity.
Defined.

(** ** Game: the end of a round and the terminal checks *)

(** C3: every [endRound()] ([Game::GameOver]), whatever the score, sets the
    state to game over (and stops the simulation), resets the snake to its
    initial layout and direction, replaces the fruits, whatever they were, by
    three fresh ones spawned off the reset snake, sets the tick interval back
    to [0.2], makes [high_score] the maximum of its old value and the final
    score, stores the final score in [temp_score] and sets the score to [0].
    It returns whenever the stream offers free cells within the fuel. *)
Theorem endRound_spec (rand : nat -> Z) (fuel : nat) (g : Game) (e : Env) :
  (fair rand fuel initial_body ->
     exists g' e', GameOver rand fuel g e = Ok (g', e')) /\
  (forall fs0, GameOver rand fuel (set_fruits fs0 g) e = GameOver rand fuel g e) /\
  (forall g' e', GameOver rand fuel g e = Ok (g', e') ->
     game_over g' = true /\ running g' = false /\
     body (snake g') = [(6, 9); (5, 9); (4, 9)] /\
     direction (snake g') = (1, 0) /\
     length (fruits g') = 3%nat /\
     (forall f, In f (fruits g') ->
        in_grid (position f) /\ ~ In (position f) (body (snake g'))) /\
     speed g' = 0.2%float /\
     high_score e' = Z.max (high_score e) (score g) /\
     temp_score e' = score g /\
     score g' = 0).
Proof.
  split; [apply GameOver_fair|]. split; [intros fs0; apply GameOver_clears|].
  intros g' e' H. apply GameOver_Ok in H.
  destruct H as (fs & c & -> & Hlen & Hall & ->).
  cbn [game_over running body snake direction Snake_Reset fruits speed
       high_score temp_score score].
  repeat (split; [reflexivity|]). split; [exact Hlen|].
  split; [|repeat split].
  intros f Hin. destruct (Hall f Hin) as [Hg Hf].
  split; [exact Hg | apply (proj1 (ElementInDeque_false _ _) Hf)].
Qed.

Definition round_lost : Game :=
  mkGame 7 (speed_after 7) true false
    (mkSnake false [(25, 9); (24, 9); (23, 9)] (1, 0))
    [mkFood (3, 3) 0; mkFood (10, 20) 1; mkFood (0, 7) 2].

Definition round_lost_env : Env := mkEnv 5 2 0%float 10 [].

Definition round_over : Game * Env :=
  Eval vm_compute in
    match GameOver walk_rand 3 round_lost round_lost_env with
    | Ok r => r
    | _ => (round_lost, round_lost_env)
    end.

Lemma endRound_witness :
  (exists g' e', GameOver zero_rand 0 round_lost round_lost_env = Ok (g', e')) /\
  GameOver walk_rand 3 round_lost round_lost_env = Ok round_over /\
  game_over (fst round_over) = true /\ running (fst round_over) = false /\
  body (snake (fst round_over)) = [(6, 9); (5, 9); (4, 9)] /\
  length (fruits (fst round_over)) = 3%nat /\
  speed (fst round_over) = 0.2%float /\
  high_score (snd round_over) = 7 /\ temp_score (snd round_over) = 7 /\
  score (fst round_over) = 0.
Proof.
  assert (Hrun : GameOver walk_rand 3 round_lost round_lost_env =
                 Ok (fst round_over, snd round_over))
    by (vm_compute; reflexivity).
  split.
  { apply (proj1 (endRound_spec zero_rand 0 round_lost round_lost_env)).
    apply zero_rand_fair. reflexivity. }
  split; [exact Hrun|].
  destruct (proj2 (proj2 (endRound_spec walk_rand 3 round_lost round_lost_env))
              _ _ Hrun)
    as (H1 & H2 & H3 & _ & H5 & _ & H7 & H8 & H9 & H10).
  repeat split; assumption.
Defined.

(** C2: the boundary check ([Game::CheckCollisionWithEdges]) ends the round
    exactly when a coordinate of the head is [-1] or the grid size [25]: then
    it runs [GameOver] once and plays the wall sound once, and the game is
    over; otherwise it changes nothing.  So heads [(25,9)] and [(-1,9)] end
    the round and head [(24,9)] does not. *)
Theorem boundary_check_spec (rand : nat -> Z) (fuel : nat) (g : Game) (e : Env)
    (head : Vector2) (rest : list Vector2) :
  body (snake g) = head :: rest ->
  (head_out head = true <->
     fst head = -1 \/ fst head = 25 \/ snd head = -1 \/ snd head = 25) /\
  CheckCollisionWithEdges rand fuel g e =
    (if head_out head
     then (g' <- GameOver rand fuel g ;; PlaySound wall ;;; ret g')%sim e
     else Ok (g, e)) /\
  (head_out head = true -> fair rand fuel initial_body ->
     exists g' e', CheckCollisionWithEdges rand fuel g e = Ok (g', e')) /\
  (head_out head = true -> forall g' e',
     CheckCollisionWithEdges rand fuel g e = Ok (g', e') ->
     game_over g' = true /\ running g' = false /\
     played e' = wall :: played e) /\
  head_out (25, 9) = true /\ head_out (-1, 9) = true /\ head_out (24, 9) = false.
Proof.
  intros Hb. pose proof (CheckCollisionWithEdges_eq rand fuel g e head rest Hb) as Heq.
  split; [apply head_out_iff|]. split; [exact Heq|].
  split; [|split; [|repeat split]].
  - intros Hout Hfair. rewrite Heq, Hout. apply end_round_fair, Hfair.
  - intros Hout g' e' H. rewrite Heq, Hout in H.
    apply end_round_Ok in H. destruct H as (e1 & Hg & ->).
    apply GameOver_Ok in Hg. destruct Hg as (fs & c & -> & _ & _ & ->).
    cbn [game_over running played]. split; [reflexivity|]. split; reflexivity.
Qed.

Definition at_right_wall : Game :=
  mkGame 2 (speed_after 2) true false
    (mkSnake false [(25, 9); (24, 9); (23, 9)] (1, 0))
    [mkFood (3, 3) 0; mkFood (10, 20) 1; mkFood (0, 7) 2].

Definition at_right_wall_checked : Game * Env :=
  Eval vm_compute in
    match CheckCollisionWithEdges walk_rand 3 at_right_wall Env0 with
    | Ok r => r
    | _ => (at_right_wall, Env0)
    end.

Lemma boundary_check_witness :
  CheckCollisionWithEdges walk_rand 3 at_right_wall Env0 = Ok at_right_wall_checked /\
  game_over (fst at_right_wall_checked) = true /\
  running (fst at_right_wall_checked) = false /\
  played (snd at_right_wall_checked) = [wall].
Proof.
  assert (Hrun : CheckCollisionWithEdges walk_rand 3 at_right_wall Env0 =
                 Ok (fst at_right_wall_checked, snd at_right_wall_checked))
    by (vm_compute; reflexivity).
  split; [exact Hrun|].
  pose proof (boundary_check_spec walk_rand 3 at_right_wall Env0
                (25, 9) [(24, 9); (23, 9)] eq_refl) as H.
  destruct H as (_ & _ & _ & H & _).
  destruct (H eq_refl _ _ Hrun) as (H1 & H2 & H3).
  repeat split; assumption.
Defined.

(** ** Game: reachable states *)

(** No fruit lies on a cell of the snake. *)
Definition food_off_snake (g : Game) : Prop :=
  forall f c, In f (fruits g) -> In c (body (snake g)) -> position f <> c.

Lemma Inv_food_off_snake (g : Game) : Inv g -> food_off_snake g.
Proof.
  intros HI f c Hf Hc Heq. destruct (inv_fruits g HI f Hf) as [_ Hoff].
  apply ElementInDeque_false in Hoff. apply Hoff. rewrite Heq. exact Hc.
Qed.

Lemma Update_food_off_snake (rand : nat -> Z) (fuel : nat) (g : Game) (e : Env)
    (g' : Game) (e' : Env) :
  food_off_snake g -> Update rand fuel g e = Ok (g', e') -> food_off_snake g'.
Proof.
  intros Hoff H. destruct (running g) eqn:Hrun.
  2:{ unfold Update in H. rewrite Hrun in H. injection H as <- _. exact Hoff. }
  destruct (body (snake g)) as [|head rest] eqn:Hb.
  { unfold Update, bind, lift, Snake_Update in H. rewrite Hrun, Hb in H.
    discriminate. }
  destruct (Update_Ok rand fuel g e head rest g' e' Hrun Hb H)
    as (fs1 & c1 & _ & Hall & Hend).
  cbv zeta in Hall, Hend.
  destruct (head_out _ || ElementInDeque _ _).
  { apply Inv_food_off_snake. exact (end_round_Inv rand _ _ _ _ _ Hend). }
  injection Hend as <- _. unfold fed. intros f c Hf Hc Heq.
  cbn [fst fruits snake body] in Hf, Hc.
  destruct (Hall f Hf) as [[Hold Hm] | [_ Hfresh]].
  - destruct Hc as [Hc | Hc].
    + rewrite <- Heq in Hc. apply Vector2Equals_eq in Hc. congruence.
    + apply (Hoff f c Hold); [|exact Heq]. rewrite Hb.
      destruct (addSegment (snake g));
        [exact Hc | exact (In_removelast (head :: rest) _ Hc)].
  - apply ElementInDeque_false in Hfresh. apply Hfresh. rewrite Heq. exact Hc.
Qed.

(** A stream that spawns two of the three fruits on the cell in front of
    the snake, and the respawns elsewhere. *)
Definition twin_rand : nat -> Z :=
  fun n => nth n [0; 7; 9; 1; 7; 9; 2; 3; 3; 11; 4; 0; 12; 4; 1] 0.

Definition no_input (t : float) : Input :=
  mkInput t false false false false false false false false.
Definition enter_input : Input :=
  mkInput 0%float true false false false false false false false.

(** The game as constructed, after the start key, and after each of two
    ticks, on [twin_rand]. *)
Definition demo0 : Game * Env :=
  Eval vm_compute in
    match Game_new twin_rand 3 Env0 with
    | Ok r => r
    | _ => (mkGame 0 0%float false false Snake_new [], Env0)
    end.
Definition demo1 : Game * Env :=
  Eval vm_compute in
    match frame twin_rand 3 enter_input (fst demo0) (snd demo0) with
    | Ok (g, _, e) => (g, e)
    | _ => demo0
    end.
Definition demo2 : Game * Env :=
  Eval vm_compute in
    match frame twin_rand 3 (no_input 1) (fst demo1) (snd demo1) with
    | Ok (g, _, e) => (g, e)
    | _ => demo1
    end.
Definition demo3 : Game * Env :=
  Eval vm_compute in
    match frame twin_rand 3 (no_input 2) (fst demo2) (snd demo2) with
    | Ok (g, _, e) => (g, e)
    | _ => demo2
    end.

Lemma demo1_reachable : reachable twin_rand (fst demo1) (snd demo1).
Proof.
  apply (reach_frame twin_rand 3 enter_input (fst demo0) (snd demo0) _ false).
  - apply (reach_new twin_rand 3). vm_compute. reflexivity.
  - vm_compute. reflexivity.
Qed.

Lemma demo2_reachable : reachable twin_rand (fst demo2) (snd demo2).
Proof.
  apply (reach_frame twin_rand 3 (no_input 1) (fst demo1) (snd demo1) _ false).
  - exact demo1_reachable.
  - vm_compute. reflexivity.
Qed.

Lemma demo3_reachable : reachable twin_rand (fst demo3) (snd demo3).
Proof.
  apply (reach_frame twin_rand 3 (no_input 2) (fst demo2) (snd demo2) _ false).
  - exact demo2_reachable.
  - vm_compute. reflexivity.
Qed.

(** C5: the fruits are off the snake in the game as constructed; a tick and
    a round end keep them off; hence in every state reachable by frames,
    ticks and round ends no fruit lies on a cell of the snake. *)
Theorem food_never_on_snake (rand : nat -> Z) :
  (forall fuel e g e',
      Game_new rand fuel e = Ok (g, e') -> food_off_snake g) /\
  (forall fuel g e g' e',
      food_off_snake g -> Update rand fuel g e = Ok (g', e') ->
      food_off_snake g') /\
  (forall fuel g e g' e',
      GameOver rand fuel g e = Ok (g', e') -> food_off_snake g') /\
  (forall g e, reachable rand g e -> food_off_snake g).
Proof.
  split; [|split; [|split]].
  - intros fuel e g e' H. exact (Inv_food_off_snake g (Game_new_Inv rand _ _ _ _ H)).
  - intros fuel g e g' e'. apply Update_food_off_snake.
  - intros fuel g e g' e' H.
    exact (Inv_food_off_snake g' (GameOver_Inv rand _ _ _ _ _ H)).
  - intros g e H. exact (Inv_food_off_snake g (reachable_Inv rand g e H)).
Qed.

Lemma food_never_on_snake_witness :
  body (snake (fst demo3)) = [(8, 9); (7, 9); (6, 9); (5, 9)] /\
  map position (fruits (fst demo3)) = [(11, 4); (12, 4); (3, 3)] /\
  food_off_snake (fst demo3).
Proof.
  split; [reflexivity|]. split; [reflexivity|].
  exact (proj2 (proj2 (proj2 (food_never_on_snake twin_rand)))
           (fst demo3) (snd demo3) demo3_reachable).
Defined.

(** ** Game: the speed ramp *)

(** The rational number a finite double stands for. *)
Definition double_value (v : float) : Q :=
  match Prim2SF v with
  | S754_finite s m ex =>
      (if s then -1 else 1) * inject_Z (Z.pos m) * Qpower 2 ex
  | _ => 0
  end.

(** [0.2 * 0.98^n] over the rationals. *)
Definition ideal_interval (n : nat) : Q :=
  (1 # 5) * Qpower (49 # 50) (Z.of_nat n).

Definition above_floor (n : nat) : bool :=
  PrimFloat.ltb 0.07%float (scaled n) && PrimFloat.leb 0.07%float (scaled n).

Definition near_ideal (n : nat) : bool :=
  Qle_bool (Qabs (double_value (scaled n) - ideal_interval n)) (Qpower 2 (-53)).

Lemma forallb_seq (p : nat -> bool) (m n : nat) :
  forallb p (seq 0 m) = true -> (n < m)%nat -> p n = true.
Proof.
  intros H Hn. rewrite forallb_forall in H. apply H, in_seq. lia.
Qed.

Lemma above_floor_51 (n : nat) : (n <= 51)%nat -> above_floor n = true.
Proof.
  intros Hn. apply (forallb_seq above_floor 52); [vm_compute; reflexivity | lia].
Qed.

Lemma speed_after_scaled (n : nat) : (n <= 52)%nat -> speed_after n = scaled n.
Proof.
  induction n as [|n IH]; intros Hn; [reflexivity|].
  change (speed_after (S n)) with (speed_up (speed_after n)).
  rewrite IH by lia. unfold speed_up.
  assert (Hf : above_floor n = true) by (apply above_floor_51; lia).
  apply andb_true_iff in Hf. destruct Hf as [_ ->]. reflexivity.
Qed.

Lemma speed_after_floor (n : nat) : (52 <= n)%nat -> speed_after n = scaled 52.
Proof.
  induction 1 as [|n _ IH]; [apply speed_after_scaled; lia|].
  change (speed_after (S n)) with (speed_up (speed_after n)).
  rewrite IH. vm_compute. reflexivity.
Qed.

(** C8: each eat adds one to the score and, when the tick interval is at or
    above the floor [0.07], multiplies it by [0.98], leaving it alone below
    the floor.  Consequently in every reachable state the interval is the
    one [score] eats lead to from [0.2]: for up to 52 eats that is [0.2]
    multiplied [n] times by [0.98] in double arithmetic (within [2^-53] of
    the real number [0.2 * 0.98^n]), strictly above the floor until the 52nd
    eat; from 52 eats on it is below the floor and is multiplied no more. *)
Theorem speed_ramp (rand : nat -> Z) :
  (forall fuel f g e head rest r e',
      body (snake g) = head :: rest ->
      Vector2Equals head (position f) = true ->
      eat_fruit rand fuel f g e = Ok (r, e') ->
      score (snd r) = score g + 1 /\
      speed (snd r) =
        (if PrimFloat.leb 0.07%float (speed g)
         then PrimFloat.mul (speed g) 0.98%float
         else speed g)) /\
  (forall g e, reachable rand g e ->
      0 <= score g /\ speed g = speed_after (Z.to_nat (score g))) /\
  (forall n, (n <= 52)%nat ->
      speed_after n = scaled n /\
      (Qabs (double_value (scaled n) - ideal_interval n) <= Qpower 2 (-53))%Q) /\
  (forall n, (n <= 51)%nat -> PrimFloat.ltb 0.07%float (scaled n) = true) /\
  (forall n, (52 <= n)%nat ->
      speed_after n = scaled 52 /\
      PrimFloat.ltb (speed_after n) 0.07%float = true /\
      speed_up (speed_after n) = speed_after n).
Proof.
  split; [|split; [|split; [|split]]].
  - intros fuel f g e head rest r e' Hb Hm H.
    destruct (eat_fruit_hit rand fuel f g e head rest r e' Hb Hm H)
      as (_ & -> & _). split; reflexivity.
  - intros g e H. apply reachable_Inv in H.
    split; [exact (inv_score g H) | exact (inv_speed g H)].
  - intros n Hn. split; [exact (speed_after_scaled n Hn)|].
    apply Qle_bool_iff. change (near_ideal n = true).
    apply (forallb_seq near_ideal 53); [vm_compute; reflexivity | lia].
  - intros n Hn. pose proof (above_floor_51 n Hn) as Hf.
    apply andb_true_iff in Hf. exact (proj1 Hf).
  - intros n Hn. rewrite (speed_after_floor n Hn).
    split; [reflexivity|]. split; vm_compute; reflexivity.
Qed.

Lemma speed_ramp_witness :
  score (fst demo3) = 2 /\
  speed (fst demo3) = PrimFloat.mul (PrimFloat.mul 0.2 0.98) 0.98 /\
  (Qabs (double_value (speed (fst demo3)) - (1 # 5) * (49 # 50) * (49 # 50))
     <= Qpower 2 (-53))%Q.
Proof.
  destruct (proj1 (proj2 (speed_ramp twin_rand)) (fst demo3) (snd demo3)
              demo3_reachable) as [_ Hs].
  destruct (proj1 (proj2 (proj2 (speed_ramp twin_rand))) 2%nat) as [Ha Hq];
    [lia|].
  split; [reflexivity|]. split.
  - rewrite Hs. exact Ha.
  - rewrite Hs. change (Z.to_nat (score (fst demo3))) with 2%nat. rewrite Ha.
    exact Hq.
Defined.

(** ** Game: collisions in one tick *)

(** C9, as the code has it: a tick never emits two collision signals.  When
    the boundary check fires, [GameOver] has reset the snake before the
    self-collision check runs, and that check then finds nothing; so a tick
    ends the round at most once and plays the wall sound at most once. *)
Theorem single_collision_signal (rand : nat -> Z) (fuel : nat) (g : Game)
    (e : Env) (g' : Game) (e' : Env) :
  Update rand fuel g e = Ok (g', e') ->
  (wall_count (played e') <= wall_count (played e) + 1)%nat /\
  (forall g0 e0 head rest g1 e1,
      body (snake g0) = head :: rest ->
      head_out head = true ->
      CheckCollisionWithEdges rand fuel g0 e0 = Ok (g1, e1) ->
      played e1 = wall :: played e0 /\
      CheckCollisionsWithTail rand fuel g1 e1 = Ok (g1, e1)).
Proof.
  intros H. split; [exact (Update_wall_count rand fuel g e g' e' H)|].
  intros g0 e0 head rest g1 e1 Hb Hout Hedge.
  split; [|exact (edges_then_tail rand fuel g0 e0 head rest g1 e1 Hb Hout Hedge)].
  rewrite (CheckCollisionWithEdges_eq rand fuel g0 e0 head rest Hb), Hout in Hedge.
  apply end_round_Ok in Hedge. destruct Hedge as (e2 & Hg & ->).
  apply GameOver_Ok in Hg. destruct Hg as (fs & c & _ & _ & _ & ->). reflexivity.
Qed.

(** A running snake one step from the right wall. *)
Definition before_right_wall : Game :=
  mkGame 2 (speed_after 2) true false
    (mkSnake false [(24, 9); (23, 9); (22, 9)] (1, 0))
    [mkFood (3, 3) 0; mkFood (10, 20) 1; mkFood (0, 7) 2].

Definition into_right_wall : Game * Env :=
  Eval vm_compute in
    match Update walk_rand 3 before_right_wall Env0 with
    | Ok r => r
    | _ => (before_right_wall, Env0)
    end.

Lemma single_collision_signal_witness :
  Update walk_rand 3 before_right_wall Env0 = Ok into_right_wall /\
  game_over (fst into_right_wall) = true /\
  played (snd into_right_wall) = [wall] /\
  (wall_count (played (snd into_right_wall)) <= 1)%nat.
Proof.
  assert (Hrun : Update walk_rand 3 before_right_wall Env0 =
                 Ok (fst into_right_wall, snd into_right_wall))
    by (vm_compute; reflexivity).
  split; [exact Hrun|]. split; [reflexivity|]. split; [reflexivity|].
  exact (proj1 (single_collision_signal walk_rand 3 before_right_wall Env0
                  _ _ Hrun)).
Defined.

(** C9 as stated fails: there is no stream, fuel and state from which one
    tick emits two collision signals. *)
Lemma no_double_collision_signal :
  ~ exists rand fuel g e g' e',
      Update rand fuel g e = Ok (g', e') /\
      (wall_count (played e) + 2 <= wall_count (played e'))%nat.
Proof.
  intros (rand & fuel & g & e & g' & e' & H & Hc).
  pose proof (Update_wall_count rand fuel g e g' e' H). lia.
Qed.

(** ** Game: fruits sharing a cell *)





(** * Further properties of the program *)

(** The index of a fruit's texture is one of the four of [Food::textures]. *)
Definition texture_ok (f : Food) : Prop := 0 <= textureIndex f <= 3.

(** Two cells one orthogonal step apart. *)
Definition adjacent (a b : Vector2) : Prop :=
  unit_direction (fst a - fst b, snd a - snd b).

(** Every cell of the list is one step from the next one. *)
Fixpoint chain (l : list Vector2) : Prop :=
  match l with
  | a :: (b :: _) as rest => adjacent a b /\ chain rest
  | _ => True
  end.

(** The shape the snake and the fruits keep between ticks. *)
Record Shape (g : Game) : Prop := mkShape {
  shape_grid : forall c, In c (body (snake g)) -> in_grid c;
  shape_nodup : NoDup (body (snake g));
  shape_chain : chain (body (snake g));
  shape_length : (3 <= length (body (snake g)))%nat;
  shape_fruits : length (fruits g) = 3%nat;
  shape_textures : forall f, In f (fruits g) -> texture_ok f
}.

(** The states the loop of [main] goes through: the constructed game, and
    what a frame makes of such a state. *)
Inductive runs (rand : nat -> Z) : Game -> Env -> Prop :=
| run_new fuel g e :
    Game_new rand fuel Env0 = Ok (g, e) -> runs rand g e
| run_frame fuel inp g e g' ex e' :
    runs rand g e -> frame rand fuel inp g e = Ok ((g', ex), e') ->
    runs rand g' e'.

(** Between rounds everything is set for the next one. *)
Record Fresh (g : Game) : Prop := mkFresh {
  fresh_body : body (snake g) = initial_body;
  fresh_flag : addSegment (snake g) = false;
  fresh_score : score g = 0;
  fresh_speed : speed g = 0.2%float
}.

(** [Snake::Draw]: the rectangles handed to [DrawRectangleRounded], each
    [(x, y, width, height)] in pixels. *)
Definition cellsize : Z := 30.
Definition offset : Z := 75.

Definition Snake_Draw (s : Snake) : list (Z * Z * Z * Z) :=
  map (fun c => (offset + fst c * cellsize, offset + snd c * cellsize,
                 cellsize, cellsize))
      (body s).

(** Splits a successful run of [x <- m ;; k] into the run of [m] and the run
    of [k]. *)
Ltac run_split H a e1 H1 :=
  apply bind_Ok in H; destruct H as (a & e1 & H1 & H).

(** ** The membership scan and raymath's comparison *)

(** The cells above are integers compared exactly, where the source compares
    floats with raymath's [Vector2Equals].  raymath is library code outside
    the repository; its test on each coordinate is
    [fabsf(p - q) <= EPSILON * fmaxf(1.0f, fmaxf(fabsf(p), fabsf(q)))] with
    [EPSILON = 0.000001f], computed in single precision.  It is modelled here
    with the binary32 operations of [SpecFloat] (precision 24, [emax] 128) on
    the floats the integer coordinates convert to. *)
Definition f32 (z : Z) : spec_float := binary_normalize 24 128 z 0 false.

(** [0.000001f], the binary32 value nearest to one millionth. *)
Definition EPSILON : spec_float := S754_finite false 8796093 (-43).

Definition fmaxf (a b : spec_float) : spec_float := if SFltb a b then b else a.

Definition close_f32 (p q : Z) : bool :=
  SFleb (SFabs (SFsub 24 128 (f32 p) (f32 q)))
        (SFmul 24 128 EPSILON
           (fmaxf (f32 1) (fmaxf (SFabs (f32 p)) (SFabs (f32 q))))).

Definition Vector2Equals_raymath (p q : Vector2) : bool :=
  close_f32 (fst p) (fst q) && close_f32 (snd p) (snd q).

(** [ElementInDeque] as the source has it, with raymath's comparison. *)
Fixpoint ElementInDeque_raymath (element : Vector2) (deque : list Vector2)
  : bool :=
  match deque with
  | [] => false
  | c :: rest =>
      if Vector2Equals_raymath c element then true
      else ElementInDeque_raymath element rest
  end.

(** Coordinates within fifty of the origin; the game stores none outside
    [-1 .. 25]. *)
Definition near (c : Vector2) : Prop :=
  -50 <= fst c <= 50 /\ -50 <= snd c <= 50.

Definition near_range : list Z := map (fun n => Z.of_nat n - 50) (seq 0 101).

Definition close_f32_exact_on (l : list Z) : bool :=
  forallb (fun x => forallb (fun y => Bool.eqb (close_f32 x y) (x =? y)) l) l.

Lemma EPSILON_is_a_millionth :
  SFdiv 24 128 (f32 1) (f32 1000000) = EPSILON.
Proof. vm_compute. reflexivity. Qed.

Lemma in_near_range (x : Z) : -50 <= x <= 50 -> In x near_range.
Proof.
  intros Hx. unfold near_range. apply in_map_iff.
  exists (Z.to_nat (x + 50)). split; [lia|]. apply in_seq. lia.
Qed.

Lemma close_f32_table : close_f32_exact_on near_range = true.
Proof. vm_compute. reflexivity. Qed.

Lemma close_f32_exact_in (l : list Z) (x y : Z) :
  close_f32_exact_on l = true -> In x l -> In y l ->
  close_f32 x y = (x =? y).
Proof.
  unfold close_f32_exact_on. intros Htable Hx Hy.
  rewrite forallb_forall in Htable. specialize (Htable x Hx).
  rewrite forallb_forall in Htable. specialize (Htable y Hy).
  apply eqb_prop in Htable. exact Htable.
Qed.

(** On such coordinates the tolerance test in single precision is plain
    equality. *)
Lemma close_f32_exact (x y : Z) :
  -50 <= x <= 50 -> -50 <= y <= 50 -> close_f32 x y = (x =? y).
Proof.
  intros Hx Hy.
  exact (close_f32_exact_in near_range x y close_f32_table
           (in_near_range x Hx) (in_near_range y Hy)).
Qed.

Lemma Vector2Equals_raymath_exact (p q : Vector2) :
  near p -> near q -> Vector2Equals_raymath p q = Vector2Equals p q.
Proof.
  intros [Hpx Hpy] [Hqx Hqy]. unfold Vector2Equals_raymath, Vector2Equals.
  rewrite (close_f32_exact _ _ Hpx Hqx), (close_f32_exact _ _ Hpy Hqy).
  reflexivity.
Qed.

Lemma ElementInDeque_raymath_exact (element : Vector2) (deque : list Vector2) :
  near element -> (forall c, In c deque -> near c) ->
  ElementInDeque_raymath element deque = ElementInDeque element deque.
Proof.
  intros He. induction deque as [|c rest IH]; intros Hd; [reflexivity|].
  cbn [ElementInDeque_raymath ElementInDeque].
  rewrite (Vector2Equals_raymath_exact c element (Hd c (or_introl eq_refl)) He).
  rewrite IH; [reflexivity|]. intros c' Hc'. apply Hd. right. exact Hc'.
Qed.

(** Far from the origin the tolerance shows: raymath finds these two
    different cells equal. *)
Example raymath_tolerance_far_away :
  Vector2Equals_raymath (1000000, 0) (1000001, 0) = true /\
  Vector2Equals (1000000, 0) (1000001, 0) = false.
Proof. split; vm_compute; reflexivity. Qed.

(** X1: on cells with coordinates within fifty of the origin (the game
    stores none outside [-1 .. 25]) [ElementInDeque], with raymath's
    tolerance comparison computed in single precision, answers true exactly
    when the cell occurs in the deque, and is the scan with exact equality
    used above; on a concatenation it answers true when it does on either
    part. *)
Theorem ElementInDeque_spec (element : Vector2) (deque : list Vector2) :
  near element ->
  (forall c, In c deque -> near c) ->
  (ElementInDeque_raymath element deque = true <-> In element deque) /\
  ElementInDeque_raymath element deque = ElementInDeque element deque /\
  (forall more, (forall c, In c more -> near c) ->
     ElementInDeque_raymath element (deque ++ more) =
     ElementInDeque_raymath element deque || ElementInDeque_raymath element more).
Proof.
  intros He Hd.
  pose proof (ElementInDeque_raymath_exact element deque He Hd) as Heq.
  split; [rewrite Heq; apply ElementInDeque_In|]. split; [exact Heq|].
  intros more Hm. clear Heq. induction deque as [|c rest IH]; [reflexivity|].
  cbn [app ElementInDeque_raymath].
  destruct (Vector2Equals_raymath c element); [reflexivity|].
  apply IH. intros c' Hc'. apply Hd. right. exact Hc'.
Qed.

Lemma ElementInDeque_spec_witness :
  ElementInDeque_raymath (5, 9) [(6, 9); (5, 9); (4, 9)] = true /\
  ElementInDeque_raymath (25, 9) [(6, 9); (5, 9); (4, 9)] = false /\
  (ElementInDeque_raymath (5, 9) [(6, 9); (5, 9); (4, 9)] = true <->
   In (5, 9) [(6, 9); (5, 9); (4, 9)]).
Proof.
  split; [vm_compute; reflexivity|]. split; [vm_compute; reflexivity|].
  apply (ElementInDeque_spec (5, 9) [(6, 9); (5, 9); (4, 9)]).
  - unfold near. simpl. lia.
  - intros c [<- | [<- | [<- | []]]]; unfold near; simpl; lia.
Defined.

(** ** Rejection sampling *)

Lemma first_free_least (rand : nat -> Z) (snakeBody : list Vector2) (fuel : nat) :
  forall c c', first_free rand fuel snakeBody c = Some c' ->
    exists k, (k <= fuel)%nat /\ c' = (c + 2 * k)%nat /\
      forall i, (i < k)%nat ->
        ElementInDeque (candidate rand (c + 2 * i)) snakeBody = true.
Proof.
  induction fuel as [|fuel IH]; intros c c'; simpl;
    destruct (ElementInDeque (candidate rand c) snakeBody) eqn:E;
    try discriminate.
  - intros H. injection H as <-. exists 0%nat.
    split; [lia|]. split; [lia|]. intros i Hi. lia.
  - intros H. apply IH in H. destruct H as (k & Hk & -> & Hrej).
    exists (S k). split; [lia|]. split; [lia|].
    intros i Hi. destruct i as [|i].
    + match goal with
      | |- ElementInDeque (candidate rand ?n) _ = _ => replace n with c by lia
      end.
      exact E.
    + specialize (Hrej i ltac:(lia)).
      match goal with
      | |- ElementInDeque (candidate rand ?n) _ = _ =>
          replace n with (S (S c) + 2 * i)%nat by lia
      end.
      exact Hrej.
  - intros H. injection H as <-. exists 0%nat.
    split; [lia|]. split; [lia|]. intros i Hi. lia.
Qed.

Lemma GenerateRandomPos_first (rand : nat -> Z) (fuel : nat)
    (snakeBody : list Vector2) (e : Env) (p : Vector2) (e' : Env) :
  GenerateRandomPos rand fuel snakeBody e = Ok (p, e') ->
  exists k, (k <= fuel)%nat /\
    p = candidate rand (rand_cursor e + 2 * k) /\
    (forall i, (i < k)%nat ->
       In (candidate rand (rand_cursor e + 2 * i)) snakeBody) /\
    e' = set_cursor (rand_cursor e + 2 * (k + 1)) e.
Proof.
  intros H. rewrite GenerateRandomPos_eq in H.
  destruct (first_free rand fuel snakeBody (rand_cursor e)) as [c|] eqn:E;
    [|discriminate].
  injection H as <- <-. apply first_free_least in E.
  destruct E as (k & Hk & -> & Hrej). exists k.
  split; [exact Hk|]. split; [reflexivity|]. split.
  - intros i Hi. apply ElementInDeque_In, Hrej, Hi.
  - f_equal. lia.
Qed.

(** X2: when [GenerateRandomPos] returns, it returns the first candidate of
    the stream that is off the body: the [k] candidates before it were all on
    the body, it has read exactly the [2 * (k + 1)] draws that make them, and
    it has touched nothing else of the globals. *)
Theorem spawn_first_free (rand : nat -> Z) (fuel : nat)
    (snakeBody : list Vector2) (e : Env) (p : Vector2) (e' : Env) :
  GenerateRandomPos rand fuel snakeBody e = Ok (p, e') ->
  exists k, (k <= fuel)%nat /\
    p = candidate rand (rand_cursor e + 2 * k) /\
    (forall i, (i < k)%nat ->
       In (candidate rand (rand_cursor e + 2 * i)) snakeBody) /\
    ~ In p snakeBody /\
    e' = set_cursor (rand_cursor e + 2 * (k + 1)) e.
Proof.
  intros H. pose proof (GenerateRandomPos_Ok rand _ _ _ _ _ H) as (_ & Hoff & _).
  apply GenerateRandomPos_first in H. destruct H as (k & Hk & Hp & Hrej & He).
  exists k. repeat (split; [assumption|]).
  split; [apply ElementInDeque_false, Hoff | exact He].
Qed.

Definition spawn_demo : Vector2 * Env :=
  Eval vm_compute in
    match GenerateRandomPos walk_rand 2 [(6, 13); (20, 2)] Env0 with
    | Ok r => r
    | _ => ((0, 0), Env0)
    end.

Lemma spawn_first_free_witness :
  exists k, (k <= 2)%nat /\
    fst spawn_demo = candidate walk_rand (0 + 2 * k) /\
    (forall i, (i < k)%nat ->
       In (candidate walk_rand (0 + 2 * i)) [(6, 13); (20, 2)]) /\
    ~ In (fst spawn_demo) [(6, 13); (20, 2)] /\
    snd spawn_demo = set_cursor (0 + 2 * (k + 1)) Env0.
Proof.
  apply (spawn_first_free walk_rand 2 [(6, 13); (20, 2)] Env0
           (fst spawn_demo) (snd spawn_demo)).
  vm_compute. reflexivity.
Defined.

(** ** Fruits: texture indices and the constructor *)

Lemma GetRandomValue_texture (rand : nat -> Z) (e : Env) (v : Z) (e' : Env) :
  GetRandomValue rand 0 3 e = Ok (v, e') ->
  0 <= v <= 3 /\ e' = set_cursor (S (rand_cursor e)) e.
Proof.
  unfold GetRandomValue. intros H. injection H as <- <-.
  split; [|reflexivity].
  change (Z.abs (3 - 0) + 1) with 4.
  pose proof (Z.mod_pos_bound (rand (rand_cursor e)) 4). lia.
Qed.

Lemma Food_new_full (rand : nat -> Z) (fuel : nat) (snakeBody : list Vector2)
    (e : Env) (f : Food) (e' : Env) :
  Food_new rand fuel snakeBody e = Ok (f, e') ->
  fruit_ok snakeBody f /\ texture_ok f /\
  exists c, (rand_cursor e + 3 <= c)%nat /\ e' = set_cursor c e.
Proof.
  unfold Food_new. intros H.
  run_split H ti e1 Hti. run_split H p e2 Hp.
  apply ret_Ok in H. injection H as -> ->.
  apply GetRandomValue_texture in Hti. destruct Hti as [Hti ->].
  pose proof (GenerateRandomPos_Ok rand _ _ _ _ _ Hp) as (Hg & Hoff & _).
  apply GenerateRandomPos_first in Hp.
  destruct Hp as (k & _ & _ & _ & ->).
  split; [split; assumption|]. split; [exact Hti|].
  eexists. split; [|reflexivity]. simpl. lia.
Qed.

Lemma push_fruits_full (rand : nat -> Z) (fuel : nat)
    (snakeBody : list Vector2) (n : nat) :
  forall fs e fs' e',
    push_fruits rand fuel n snakeBody fs e = Ok (fs', e') ->
    exists new, fs' = fs ++ new /\ length new = n /\
      (forall f, In f new -> fruit_ok snakeBody f /\ texture_ok f) /\
      exists c, (rand_cursor e + 3 * n <= c)%nat /\ e' = set_cursor c e.
Proof.
  induction n as [|n IH]; intros fs e fs' e' H; simpl in H.
  - apply ret_Ok in H. injection H as -> ->. exists []. rewrite app_nil_r.
    split; [reflexivity|]. split; [reflexivity|]. split; [intros f []|].
    exists (rand_cursor e). split; [lia | destruct e; reflexivity].
  - run_split H f e1 Hf.
    apply Food_new_full in Hf. destruct Hf as (Hok & Htex & c1 & Hc1 & ->).
    apply IH in H. destruct H as (new & -> & Hlen & Hall & c & Hc & ->).
    exists (f :: new). rewrite <- app_assoc.
    split; [reflexivity|]. split; [simpl; congruence|]. split.
    + intros f' [<- | Hin]; [split; assumption | apply Hall, Hin].
    + exists c. split; [simpl in Hc; lia | reflexivity].
Qed.

(** X3: [Game::Game()] builds a game in the menu state, with score 0, tick
    interval 0.2, the initial snake and three fruits, each on a grid cell off
    the snake and with a texture index in [0..3]; it reads at least nine
    random draws and changes no other global.  It returns whenever the stream
    offers free cells within the fuel. *)
Theorem Game_new_spec (rand : nat -> Z) (fuel : nat) (e : Env) :
  (fair rand fuel initial_body ->
     exists g e', Game_new rand fuel e = Ok (g, e')) /\
  (forall g e', Game_new rand fuel e = Ok (g, e') ->
     score g = 0 /\ speed g = 0.2%float /\
     running g = false /\ game_over g = false /\
     snake g = mkSnake false [(6, 9); (5, 9); (4, 9)] (1, 0) /\
     length (fruits g) = 3%nat /\
     (forall f, In f (fruits g) ->
        in_grid (position f) /\ ~ In (position f) (body (snake g)) /\
        0 <= textureIndex f <= 3) /\
     (rand_cursor e + 9 <= rand_cursor e')%nat /\
     e' = set_cursor (rand_cursor e') e).
Proof.
  split.
  - intros Hfair. unfold Game_new, bind.
    destruct (push_fruits_fair rand fuel initial_body 3 Hfair [] e)
      as (fs & e1 & Hp).
    change (body Snake_new) with initial_body. rewrite Hp.
    eexists. eexists. reflexivity.
  - intros g e' H. unfold Game_new in H. run_split H fs e1 Hp.
    apply ret_Ok in H. injection H as -> ->.
    apply push_fruits_full in Hp.
    destruct Hp as (new & -> & Hlen & Hall & c & Hc & ->).
    cbn [score speed running game_over snake fruits body app rand_cursor
         set_cursor].
    repeat (split; [reflexivity|]). split; [exact Hlen|]. split.
    + intros f Hin. destruct (Hall f Hin) as [[Hg Hoff] Htex].
      split; [exact Hg|]. split; [|exact Htex].
      exact (proj1 (ElementInDeque_false _ _) Hoff).
    + split; [lia | reflexivity].
Qed.

Lemma Game_new_spec_witness :
  snake (fst demo0) = mkSnake false [(6, 9); (5, 9); (4, 9)] (1, 0) /\
  map position (fruits (fst demo0)) = [(7, 9); (7, 9); (3, 3)] /\
  length (fruits (fst demo0)) = 3%nat /\
  (rand_cursor Env0 + 9 <= rand_cursor (snd demo0))%nat.
Proof.
  assert (Hrun : Game_new twin_rand 3 Env0 = Ok (fst demo0, snd demo0))
    by (vm_compute; reflexivity).
  destruct (proj2 (Game_new_spec twin_rand 3 Env0) _ _ Hrun)
    as (_ & _ & _ & _ & Hs & Hl & _ & Hc & _).
  split; [exact Hs|]. split; [reflexivity|]. split; [exact Hl | exact Hc].
Defined.

Lemma GameOver_textures (rand : nat -> Z) (fuel : nat) (g : Game) (e : Env)
    (g' : Game) (e' : Env) :
  GameOver rand fuel g e = Ok (g', e') ->
  forall f, In f (fruits g') -> texture_ok f.
Proof.
  unfold GameOver. intros H. run_split H fs e1 Hp.
  apply push_fruits_full in Hp. destruct Hp as (new & -> & _ & Hall & _).
  injection H as <- _. intros f Hin. exact (proj2 (Hall f Hin)).
Qed.

Lemma eat_fruit_texture (rand : nat -> Z) (fuel : nat) (f : Food) (g : Game)
    (e : Env) (r : Food * Game) (e' : Env) :
  texture_ok f ->
  eat_fruit rand fuel f g e = Ok (r, e') -> texture_ok (fst r).
Proof.
  intros Hf. unfold eat_fruit. destruct (body (snake g)) as [|head rest];
    [discriminate|].
  destruct (Vector2Equals head (position f)).
  - intros H. run_split H p e1 Hp. run_split H ti e2 Hti.
    run_split H n e3 Hn. run_split H u e4 Hs.
    apply ret_Ok in H. injection H as -> _.
    apply GetRandomValue_texture in Hti. exact (proj1 Hti).
  - intros H. apply ret_Ok in H. injection H as -> _. exact Hf.
Qed.

Lemma for_fruits_texture (rand : nat -> Z) (fuel : nat) (fs : list Food) :
  forall g e r e',
    (forall f, In f fs -> texture_ok f) ->
    for_fruits rand fuel fs g e = Ok (r, e') ->
    forall f, In f (fst r) -> texture_ok f.
Proof.
  induction fs as [|f0 fs IH]; intros g e r e' Hall H; simpl in H.
  - apply ret_Ok in H. injection H as -> _. intros f [].
  - run_split H r0 e1 Hr0. run_split H r1 e2 Hr1.
    apply ret_Ok in H. injection H as -> _. cbn [fst].
    intros f [<- | Hin].
    + apply (eat_fruit_texture rand fuel f0 g e r0 e1); [|exact Hr0].
      apply Hall. left. reflexivity.
    + apply (IH (snd r0) e1 r1 e2); [|exact Hr1 | exact Hin].
      intros f' Hf'. apply Hall. right. exact Hf'.
Qed.

(** A tick of a running game from the fruits' side: the fruits after the
    meal keep valid textures, and so do those a round end spawns. *)
Lemma Update_textures (rand : nat -> Z) (fuel : nat) (g : Game) (e : Env)
    (g' : Game) (e' : Env) :
  (forall f, In f (fruits g) -> texture_ok f) ->
  Update rand fuel g e = Ok (g', e') ->
  forall f, In f (fruits g') -> texture_ok f.
Proof.
  intros Hall H. destruct (running g) eqn:Hrun.
  2:{ unfold Update in H. rewrite Hrun in H. apply ret_Ok in H.
      injection H as -> _. exact Hall. }
  destruct (body (snake g)) as [|head rest] eqn:Hb.
  { unfold Update, bind, lift, Snake_Update in H. rewrite Hrun, Hb in H.
    discriminate. }
  unfold Update in H. rewrite Hrun in H.
  run_split H s e0 Hs. apply lift_Ok in Hs. cbn [fst snd] in Hs.
  destruct Hs as [Hs ->]. rewrite (Snake_Update_eq _ head rest Hb) in Hs.
  injection Hs as <-.
  run_split H g1 e1 Hfood. unfold CheckCollisionWithFood in Hfood.
  run_split Hfood r e2 Hloop. apply ret_Ok in Hfood. injection Hfood as -> ->.
  pose proof (for_fruits_texture rand fuel _ _ _ _ _ Hall Hloop) as Htex.
  destruct r as [fs1 g2]. cbn [fst snd] in *.
  apply for_fruits_Ok with (head := Vector2Add head (direction (snake g)))
    (rest := if addSegment (snake g) then head :: rest
             else removelast (head :: rest)) in Hloop; [|reflexivity].
  destruct Hloop as (-> & _).
  rewrite (terminal_checks_eq rand fuel _ _
             (Vector2Add head (direction (snake g)))
             (if addSegment (snake g) then head :: rest
              else removelast (head :: rest))) in H by reflexivity.
  destruct (head_out _ || ElementInDeque _ _).
  - apply end_round_Ok in H. destruct H as (e3 & Hg & _).
    exact (GameOver_textures rand _ _ _ _ _ Hg).
  - injection H as <- _. exact Htex.
Qed.

(** ** The shape of the snake *)

Lemma NoDup_removelast {A : Type} (l : list A) : NoDup l -> NoDup (removelast l).
Proof.
  induction l as [|a l IH]; intros H; [exact H|].
  destruct l as [|b l]; [constructor|].
  change (NoDup (a :: removelast (b :: l))).
  apply NoDup_cons_iff in H. destruct H as [Hn Hd]. constructor.
  - intros Hin. apply Hn. exact (In_removelast (b :: l) a Hin).
  - apply IH, Hd.
Qed.

Lemma chain_removelast (l : list Vector2) : chain l -> chain (removelast l).
Proof.
  induction l as [|a l IH]; intros H; [exact H|].
  destruct l as [|b l]; [exact I|].
  change (chain (a :: removelast (b :: l))).
  destruct H as [Hab Hc]. specialize (IH Hc).
  destruct l as [|c l]; [exact I|].
  change (removelast (b :: c :: l)) with (b :: removelast (c :: l)) in *.
  split; assumption.
Qed.

Lemma step_in_grid (head d : Vector2) :
  in_grid head -> unit_direction d ->
  head_out (Vector2Add head d) = false -> in_grid (Vector2Add head d).
Proof.
  intros [Hx Hy] Hd Hout. unfold in_grid, cellcount in *.
  destruct (head_out (Vector2Add head d)) eqn:E; [discriminate|].
  assert (Hn : ~ (fst (Vector2Add head d) = -1 \/
                  fst (Vector2Add head d) = cellcount \/
                  snd (Vector2Add head d) = -1 \/
                  snd (Vector2Add head d) = cellcount)).
  { intros Hc. apply head_out_iff in Hc. congruence. }
  unfold cellcount in Hn.
  destruct Hd as [-> | [-> | [-> | ->]]]; cbn [Vector2Add fst snd] in *; lia.
Qed.

Lemma step_adjacent (head d : Vector2) :
  unit_direction d -> adjacent (Vector2Add head d) head.
Proof.
  intros Hd. unfold adjacent. cbn [Vector2Add fst snd].
  replace (fst head + fst d - fst head) with (fst d) by lia.
  replace (snd head + snd d - snd head) with (snd d) by lia.
  destruct d. exact Hd.
Qed.

Lemma initial_Shape (g : Game) :
  body (snake g) = initial_body ->
  length (fruits g) = 3%nat ->
  (forall f, In f (fruits g) -> texture_ok f) ->
  Shape g.
Proof.
  intros Hb Hl Ht. constructor; rewrite ?Hb; try assumption.
  - intros c [<- | [<- | [<- | []]]]; unfold in_grid, cellcount; simpl; lia.
  - repeat constructor; simpl; intuition discriminate.
  - simpl. unfold adjacent, unit_direction. simpl. auto.
  - simpl. lia.
Qed.

Lemma GameOver_Shape (rand : nat -> Z) (fuel : nat) (g : Game) (e : Env)
    (g' : Game) (e' : Env) :
  GameOver rand fuel g e = Ok (g', e') -> Shape g'.
Proof.
  intros H. pose proof (GameOver_textures rand _ _ _ _ _ H) as Ht.
  apply GameOver_Ok in H. destruct H as (fs & c & -> & Hl & _ & _).
  apply initial_Shape; [reflexivity | exact Hl | exact Ht].
Qed.

Lemma Update_Shape (rand : nat -> Z) (fuel : nat) (g : Game) (e : Env)
    (g' : Game) (e' : Env) :
  Inv g -> Shape g -> Update rand fuel g e = Ok (g', e') -> Shape g'.
Proof.
  intros HI HS H.
  pose proof (Update_textures rand fuel g e g' e' (shape_textures g HS) H) as Ht.
  destruct (running g) eqn:Hrun.
  2:{ unfold Update in H. rewrite Hrun in H. apply ret_Ok in H.
      injection H as -> _. exact HS. }
  destruct (body (snake g)) as [|head rest] eqn:Hb.
  { exfalso. exact (inv_body g HI Hb). }
  destruct (Update_Ok rand fuel g e head rest g' e' Hrun Hb H)
    as (fs1 & c1 & Hlen & _ & Hend).
  cbv zeta in Hend.
  set (head1 := Vector2Add head (direction (snake g))) in *.
  set (rest1 := if addSegment (snake g) then head :: rest
                else removelast (head :: rest)) in *.
  destruct (head_out head1 || ElementInDeque head1 rest1) eqn:Efire.
  { apply end_round_Ok in Hend. destruct Hend as (e1 & Hg & _).
    exact (GameOver_Shape rand _ _ _ _ _ Hg). }
  apply orb_false_iff in Efire. destruct Efire as [Hout Htail].
  injection Hend as <- _. unfold fed in *. fold head1 rest1 in Ht |- *.
  cbn [fst snake body fruits] in Ht |- *.
  pose proof (shape_grid g HS) as Hgrid. pose proof (shape_nodup g HS) as Hnd.
  pose proof (shape_chain g HS) as Hch. pose proof (shape_length g HS) as Hlg.
  rewrite Hb in Hgrid, Hnd, Hch, Hlg.
  assert (Hsub : forall c, In c rest1 -> In c (head :: rest)).
  { intros c Hc. unfold rest1 in Hc. destruct (addSegment (snake g));
      [exact Hc | exact (In_removelast (head :: rest) c Hc)]. }
  constructor; cbn [snake body fruits].
  - intros c [<- | Hc].
    + apply step_in_grid; [apply Hgrid; left; reflexivity | exact (inv_dir g HI)
                          | exact Hout].
    + apply Hgrid, Hsub, Hc.
  - constructor.
    + apply ElementInDeque_false, Htail.
    + unfold rest1. destruct (addSegment (snake g));
        [exact Hnd | exact (NoDup_removelast _ Hnd)].
  - assert (Hc1 : chain rest1).
    { unfold rest1. destruct (addSegment (snake g));
        [exact Hch | exact (chain_removelast _ Hch)]. }
    assert (Hr1 : rest1 = [] \/ exists t, rest1 = head :: t).
    { unfold rest1. destruct (addSegment (snake g)); [right; eexists; reflexivity|].
      destruct rest; [left; reflexivity | right; eexists; reflexivity]. }
    change (chain (head1 :: rest1)). clearbody rest1.
    destruct Hr1 as [-> | [t ->]]; [exact I|].
    split; [|exact Hc1].
    apply step_adjacent, (inv_dir g HI).
  - change (3 <= S (length rest1))%nat.
    assert (length (head :: rest) <= S (length rest1))%nat; [|lia].
    unfold rest1. destruct (addSegment (snake g)); [simpl; lia|].
    rewrite removelast_cons_length. simpl. lia.
  - rewrite Hlen. exact (shape_fruits g HS).
  - exact Ht.
Qed.

Lemma direction_key_Shape (pressed : bool) (k : Key) (g : Game) :
  Shape g -> Shape (direction_key pressed k g).
Proof.
  intros HS. unfold direction_key.
  destruct (pressed && key_guard k (direction (snake g))); [|exact HS].
  destruct HS as [H1 H2 H3 H4 H5 H6]. constructor; assumption.
Qed.

Lemma frame_Shape (rand : nat -> Z) (fuel : nat) (inp : Input) (g : Game)
    (e : Env) (g' : Game) (ex : bool) (e' : Env) :
  Inv g -> Shape g -> frame rand fuel inp g e = Ok ((g', ex), e') -> Shape g'.
Proof.
  intros HI HS. unfold frame.
  set (g0 := if enter_pressed inp && negb (running g)
             then set_game_over false (set_running true g) else g).
  assert (HI0 : Inv g0 /\ Shape g0).
  { unfold g0. destruct (enter_pressed inp && negb (running g));
      [|split; assumption].
    destruct HI as [H1 H2 H3 H4 H5]. destruct HS as [S1 S2 S3 S4 S5 S6].
    split; constructor; assumption. }
  clearbody g0. clear HI HS g. destruct HI0 as [HI0 HS0].
  destruct (game_over g0).
  { intros H. apply ret_Ok in H. injection H as -> _ _.
    destruct (restart_clicked inp); [|exact HS0].
    destruct HS0 as [S1 S2 S3 S4 S5 S6]. constructor; assumption. }
  destruct (negb (running g0) && negb false).
  { destruct (exit_clicked inp); [|destruct (start_clicked inp)];
      intros H; apply ret_Ok in H; injection H as -> _ _; try exact HS0.
    destruct HS0 as [S1 S2 S3 S4 S5 S6]. constructor; assumption. }
  intros H. run_split H t e1 Ht. run_split H g1 e2 Hu.
  apply ret_Ok in H. injection H as -> _ _.
  repeat apply direction_key_Shape.
  destruct t; [exact (Update_Shape rand _ _ _ _ _ HI0 HS0 Hu)|].
  apply ret_Ok in Hu. injection Hu as -> _. exact HS0.
Qed.

Lemma reachable_Shape (rand : nat -> Z) (g : Game) (e : Env) :
  reachable rand g e -> Shape g.
Proof.
  induction 1 as [fuel g e H | fuel inp g e g' ex e' Hr IH H
                 | fuel g e g' e' Hr IH H | fuel g e g' e' Hr IH H].
  - unfold Game_new in H. run_split H fs e1 Hp.
    apply ret_Ok in H. injection H as -> _.
    apply push_fruits_full in Hp. destruct Hp as (new & -> & Hl & Hall & _).
    apply initial_Shape; [reflexivity | exact Hl|].
    intros f Hin. exact (proj2 (Hall f Hin)).
  - exact (frame_Shape rand _ _ _ _ _ _ _ (reachable_Inv rand _ _ Hr) IH H).
  - exact (Update_Shape rand _ _ _ _ _ (reachable_Inv rand _ _ Hr) IH H).
  - exact (GameOver_Shape rand _ _ _ _ _ H).
Qed.

Lemma NoDup_map_inj {A B : Type} (f : A -> B) (l : list A) :
  (forall a b, f a = f b -> a = b) -> NoDup l -> NoDup (map f l).
Proof.
  intros Hinj. induction 1 as [|a l Hn Hd IH]; simpl; constructor; [|exact IH].
  intros Hin. apply in_map_iff in Hin. destruct Hin as (b & Hb & Hin).
  apply Hinj in Hb. subst b. exact (Hn Hin).
Qed.

(** X4: in every reachable state there are exactly three fruits, each on a
    cell of the grid and with a texture index within the four textures of
    [Food::textures], so [Food::Draw] never indexes outside the array. *)
Theorem fruits_well_formed (rand : nat -> Z) (g : Game) (e : Env) :
  reachable rand g e ->
  length (fruits g) = 3%nat /\
  forall f, In f (fruits g) ->
    in_grid (position f) /\ 0 <= textureIndex f <= 3.
Proof.
  intros H. pose proof (reachable_Inv rand g e H) as HI.
  pose proof (reachable_Shape rand g e H) as HS.
  split; [exact (shape_fruits g HS)|].
  intros f Hin. split; [exact (proj1 (inv_fruits g HI f Hin))|].
  exact (shape_textures g HS f Hin).
Qed.

Lemma fruits_well_formed_witness :
  length (fruits (fst demo3)) = 3%nat /\
  forall f, In f (fruits (fst demo3)) ->
    in_grid (position f) /\ 0 <= textureIndex f <= 3.
Proof.
  exact (fruits_well_formed twin_rand (fst demo3) (snd demo3) demo3_reachable).
Defined.

(** X5: in every reachable state every cell of the snake is inside the
    grid: the one-step-late test of the head against [-1] and [cellcount] is
    enough to keep the whole body in [0..24] x [0..24].  Hence [Snake::Draw]
    draws every segment as a 30 x 30 rectangle inside the playing field
    [75..825] x [75..825], and no two segments at the same place. *)
Theorem snake_in_grid (rand : nat -> Z) (g : Game) (e : Env) :
  reachable rand g e ->
  (forall c, In c (body (snake g)) -> in_grid c) /\
  (forall x y w h, In (x, y, w, h) (Snake_Draw (snake g)) ->
     w = 30 /\ h = 30 /\ 75 <= x /\ x + w <= 825 /\ 75 <= y /\ y + h <= 825) /\
  NoDup (Snake_Draw (snake g)).
Proof.
  intros H. pose proof (reachable_Shape rand g e H) as HS.
  split; [exact (shape_grid g HS)|]. split.
  - intros x y w h Hin. unfold Snake_Draw in Hin. apply in_map_iff in Hin.
    destruct Hin as (c & Hc & Hin).
    pose proof (f_equal (fun r : Z * Z * Z * Z => fst (fst (fst r))) Hc) as Ex.
    pose proof (f_equal (fun r : Z * Z * Z * Z => snd (fst (fst r))) Hc) as Ey.
    pose proof (f_equal (fun r : Z * Z * Z * Z => snd (fst r)) Hc) as Ew.
    pose proof (f_equal (fun r : Z * Z * Z * Z => snd r) Hc) as Eh.
    cbn [fst snd] in Ex, Ey, Ew, Eh.
    destruct (shape_grid g HS c Hin) as [Hx Hy].
    unfold cellsize, offset, cellcount in *. lia.
  - unfold Snake_Draw. apply NoDup_map_inj; [|exact (shape_nodup g HS)].
    intros [a b] [c d] Heq.
    pose proof (f_equal (fun r : Z * Z * Z * Z => fst (fst (fst r))) Heq) as Ex.
    pose proof (f_equal (fun r : Z * Z * Z * Z => snd (fst (fst r))) Heq) as Ey.
    cbn [fst snd] in Ex, Ey. unfold cellsize, offset in *. f_equal; lia.
Qed.

Lemma snake_in_grid_witness :
  (forall c, In c (body (snake (fst demo3))) -> in_grid c) /\
  Snake_Draw (snake (fst demo3)) =
    [(315, 345, 30, 30); (285, 345, 30, 30); (255, 345, 30, 30);
     (225, 345, 30, 30)].
Proof.
  split; [|reflexivity].
  exact (proj1 (snake_in_grid twin_rand (fst demo3) (snd demo3) demo3_reachable)).
Defined.

(** X6: in every reachable state the snake is a simple path of at least
    three cells: no cell occurs twice and each cell is one orthogonal step
    from the next. *)
Theorem snake_simple_path (rand : nat -> Z) (g : Game) (e : Env) :
  reachable rand g e ->
  NoDup (body (snake g)) /\ chain (body (snake g)) /\
  (3 <= length (body (snake g)))%nat.
Proof.
  intros H. pose proof (reachable_Shape rand g e H) as HS.
  split; [exact (shape_nodup g HS)|].
  split; [exact (shape_chain g HS) | exact (shape_length g HS)].
Qed.

Lemma snake_simple_path_witness :
  NoDup (body (snake (fst demo3))) /\ chain (body (snake (fst demo3))) /\
  (3 <= length (body (snake (fst demo3))))%nat.
Proof.
  exact (snake_simple_path twin_rand (fst demo3) (snd demo3) demo3_reachable).
Defined.

(** X7: a tick of a running game either ends the round, leaving the initial
    body and the game over, or keeps the game-over flag and moves the snake:
    the body then has its old length, plus one when growth was pending, its
    new head is the old head plus the direction, and the direction is
    unchanged. *)
Theorem tick_moves_or_ends (rand : nat -> Z) (fuel : nat) (g : Game) (e : Env)
    (head : Vector2) (rest : list Vector2) (g' : Game) (e' : Env) :
  running g = true ->
  body (snake g) = head :: rest ->
  Update rand fuel g e = Ok (g', e') ->
  (game_over g' = true /\ running g' = false /\
   body (snake g') = initial_body /\ score g' = 0) \/
  (game_over g' = game_over g /\ running g' = true /\
   hd head (body (snake g')) = Vector2Add head (direction (snake g)) /\
   length (body (snake g')) =
     (length (body (snake g)) + if addSegment (snake g) then 1 else 0)%nat /\
   direction (snake g') = direction (snake g) /\
   score g <= score g').
Proof.
  intros Hrun Hb H.
  destruct (Update_Ok rand fuel g e head rest g' e' Hrun Hb H)
    as (fs1 & c1 & _ & _ & Hend).
  cbv zeta in Hend. destruct (head_out _ || ElementInDeque _ _).
  - left. apply end_round_Ok in Hend. destruct Hend as (e1 & Hg & _).
    apply GameOver_Ok in Hg. destruct Hg as (fs & c & -> & _).
    repeat split.
  - right. injection Hend as <- _. unfold fed.
    cbn [fst game_over running snake body direction score hd].
    split; [reflexivity|]. split; [reflexivity|]. split; [reflexivity|].
    split; [|split; [reflexivity | lia]].
    rewrite Hb. destruct (addSegment (snake g)).
    + simpl. lia.
    + change (S (length (removelast (head :: rest))) =
              (length (head :: rest) + 0)%nat).
      rewrite removelast_cons_length. simpl. lia.
Qed.

Definition demo_tick2 : Game * Env :=
  Eval vm_compute in
    match Update twin_rand 3 (fst demo2) (snd demo2) with
    | Ok r => r
    | _ => demo2
    end.

Lemma tick_moves_or_ends_witness :
  game_over (fst demo_tick2) = game_over (fst demo2) /\
  running (fst demo_tick2) = true /\
  hd (7, 9) (body (snake (fst demo_tick2))) = (8, 9) /\
  length (body (snake (fst demo_tick2))) = 4%nat.
Proof.
  assert (Hrun : Update twin_rand 3 (fst demo2) (snd demo2) =
                 Ok (fst demo_tick2, snd demo_tick2))
    by (vm_compute; reflexivity).
  destruct (tick_moves_or_ends twin_rand 3 (fst demo2) (snd demo2)
              (7, 9) [(6, 9); (5, 9)] _ _ eq_refl eq_refl Hrun)
    as [(Hover & _) | (H1 & H2 & H3 & H4 & _)].
  - discriminate Hover.
  - repeat split; assumption.
Defined.

(** ** Scores *)

(** What a tick does to the two score globals: nothing, or, when it ends the
    round, what [GameOver] does with the score the round reached. *)
Lemma Update_scores (rand : nat -> Z) (fuel : nat) (g : Game) (e : Env)
    (g' : Game) (e' : Env) :
  Update rand fuel g e = Ok (g', e') ->
  (high_score e' = high_score e /\ temp_score e' = temp_score e) \/
  (exists s, score g <= s /\ high_score e' = Z.max (high_score e) s /\
             temp_score e' = s).
Proof.
  intros H. destruct (running g) eqn:Hrun.
  2:{ unfold Update in H. rewrite Hrun in H. apply ret_Ok in H.
      injection H as _ ->. left. split; reflexivity. }
  destruct (body (snake g)) as [|head rest] eqn:Hb.
  { unfold Update, bind, lift, Snake_Update in H. rewrite Hrun, Hb in H.
    discriminate. }
  destruct (Update_Ok rand fuel g e head rest g' e' Hrun Hb H)
    as (fs1 & c1 & _ & _ & Hend).
  cbv zeta in Hend. destruct (head_out _ || ElementInDeque _ _).
  - right. apply end_round_Ok in Hend. destruct Hend as (e1 & Hg & ->).
    apply GameOver_Ok in Hg. destruct Hg as (fs & c & _ & _ & _ & ->).
    unfold fed. cbn [fst snd score high_score temp_score].
    eexists. split; [|split; reflexivity]. lia.
  - left. injection Hend as _ <-. split; reflexivity.
Qed.

Lemma frame_scores (rand : nat -> Z) (fuel : nat) (inp : Input) (g : Game)
    (e : Env) (g' : Game) (ex : bool) (e' : Env) :
  frame rand fuel inp g e = Ok ((g', ex), e') ->
  (high_score e' = high_score e /\ temp_score e' = temp_score e) \/
  (exists s, score g <= s /\ high_score e' = Z.max (high_score e) s /\
             temp_score e' = s).
Proof.
  unfold frame.
  set (g0 := if enter_pressed inp && negb (running g)
             then set_game_over false (set_running true g) else g).
  assert (Hs : score g0 = score g).
  { unfold g0. destruct (enter_pressed inp && negb (running g)); reflexivity. }
  clearbody g0.
  destruct (game_over g0).
  { intros H. apply ret_Ok in H. injection H as _ _ ->. left. split; reflexivity. }
  destruct (negb (running g0) && negb false).
  { destruct (exit_clicked inp); [|destruct (start_clicked inp)];
      intros H; apply ret_Ok in H; injection H as _ _ ->; left;
      split; reflexivity. }
  intros H. run_split H t e1 Ht. run_split H g1 e2 Hu.
  apply ret_Ok in H. injection H as _ _ ->.
  assert (Ht' : high_score e1 = high_score e /\ temp_score e1 = temp_score e).
  { unfold EventTriggered in Ht.
    destruct (PrimFloat.leb _ _); injection Ht as _ <-; split; reflexivity. }
  destruct Ht' as [Hh Hte]. rewrite <- Hh, <- Hte, <- Hs.
  destruct t; [exact (Update_scores rand _ _ _ _ _ Hu)|].
  apply ret_Ok in Hu. injection Hu as _ ->. left. split; reflexivity.
Qed.

(** The last round's score is never above the high score. *)
Definition Scores (e : Env) : Prop := 0 <= temp_score e <= high_score e.

Lemma scores_step (s : Z) (e e' : Env) :
  Scores e -> 0 <= s ->
  (high_score e' = high_score e /\ temp_score e' = temp_score e) \/
  (exists s', s <= s' /\ high_score e' = Z.max (high_score e) s' /\
              temp_score e' = s') ->
  Scores e'.
Proof.
  unfold Scores. intros He Hs [[-> ->] | (s' & Hs' & -> & ->)]; lia.
Qed.

Lemma reachable_Scores (rand : nat -> Z) (g : Game) (e : Env) :
  reachable rand g e -> Scores e.
Proof.
  induction 1 as [fuel g e H | fuel inp g e g' ex e' Hr IH H
                 | fuel g e g' e' Hr IH H | fuel g e g' e' Hr IH H].
  - unfold Game_new in H. run_split H fs e1 Hp.
    apply ret_Ok in H. injection H as _ ->.
    apply push_fruits_Ok in Hp. destruct Hp as (new & _ & _ & _ & c & ->).
    unfold Scores. simpl. lia.
  - apply (scores_step (score g) e e' IH);
      [exact (inv_score g (reachable_Inv rand g e Hr))|].
    exact (frame_scores rand _ _ _ _ _ _ _ H).
  - apply (scores_step (score g) e e' IH);
      [exact (inv_score g (reachable_Inv rand g e Hr))|].
    exact (Update_scores rand _ _ _ _ _ H).
  - apply GameOver_Ok in H. destruct H as (fs & c & _ & _ & _ & ->).
    pose proof (inv_score g (reachable_Inv rand g e Hr)).
    unfold Scores in *. simpl. lia.
Qed.

(** X8: across a frame of the main loop the high score never goes down; it
    changes only by taking the score of the round that just ended
    ([temp_score]), and the score last shown is never above it. *)
Theorem high_score_record (rand : nat -> Z) (fuel : nat) (inp : Input)
    (g : Game) (e : Env) (g' : Game) (ex : bool) (e' : Env) :
  reachable rand g e ->
  frame rand fuel inp g e = Ok ((g', ex), e') ->
  high_score e <= high_score e' /\
  0 <= temp_score e' <= high_score e' /\
  (high_score e' = high_score e \/ high_score e' = temp_score e').
Proof.
  intros Hr H.
  pose proof (reachable_Scores rand g' e' (reach_frame rand _ _ _ _ _ _ _ Hr H))
    as Hs'.
  unfold Scores in Hs'.
  destruct (frame_scores rand _ _ _ _ _ _ _ H)
    as [[Hh Ht] | (s & _ & Hh & Ht)].
  - split; [lia|]. split; [exact Hs'|]. left. exact Hh.
  - split; [lia|]. split; [exact Hs'|].
    destruct (Z.max_spec (high_score e) s) as [[_ Hm] | [_ Hm]];
      [right | left]; lia.
Qed.

(** ** The tick interval stays within bounds *)

Definition in_speed_range (n : nat) : bool :=
  PrimFloat.ltb 0.0699%float (scaled n) && PrimFloat.leb (scaled n) 0.2%float.

(** X9: in every reachable state the tick interval lies above [0.0699] and
    at most at [0.2]: the speed-up of [CheckCollisionWithFood] stops for good
    once the interval has passed under the floor. *)
Theorem speed_bounded (rand : nat -> Z) (g : Game) (e : Env) :
  reachable rand g e ->
  PrimFloat.ltb 0.0699%float (speed g) = true /\
  PrimFloat.leb (speed g) 0.2%float = true.
Proof.
  intros H. apply reachable_Inv in H. rewrite (inv_speed g H).
  set (n := Z.to_nat (score g)).
  assert (Hn : exists m, (m <= 52)%nat /\ speed_after n = scaled m).
  { destruct (Nat.le_gt_cases n 52) as [Hle | Hgt].
    - exists n. split; [exact Hle | exact (speed_after_scaled n Hle)].
    - exists 52%nat. split; [lia | apply speed_after_floor; lia]. }
  destruct Hn as (m & Hm & ->).
  apply andb_true_iff. change (in_speed_range m = true).
  apply (forallb_seq in_speed_range 53); [vm_compute; reflexivity | lia].
Qed.

Lemma speed_bounded_witness :
  PrimFloat.ltb 0.0699%float (speed (fst demo3)) = true /\
  PrimFloat.leb (speed (fst demo3)) 0.2%float = true.
Proof.
  exact (speed_bounded twin_rand (fst demo3) (snd demo3) demo3_reachable).
Defined.

(** ** The loop of [main] *)

(** The [while] of [main] over the inputs polled frame after frame; it ends
    with the inputs (the window is closed) or when a frame sets [exit]. *)
Fixpoint play (rand : nat -> Z) (fuel : nat) (inputs : list Input) (g : Game)
    (e : Env) : result (Game * Env) :=
  match inputs with
  | [] => Ok (g, e)
  | inp :: rest =>
      match frame rand fuel inp g e with
      | Ok ((g', ex), e') => if ex then Ok (g', e') else play rand fuel rest g' e'
      | Undefined => Undefined
      | Diverges => Diverges
      end
  end.

(** Frames one second apart with no key or button pressed. *)
Fixpoint clock_inputs (n : nat) (t : float) : list Input :=
  match n with
  | O => []
  | S n' => no_input t :: clock_inputs n' (PrimFloat.add t 1%float)
  end.

(** The three screens of [main]. *)
Inductive Mode : Type := Menu | Playing | GameOverScreen.

Definition mode (g : Game) : Mode :=
  if game_over g then GameOverScreen
  else if running g then Playing
  else Menu.

Lemma runs_reachable (rand : nat -> Z) (g : Game) (e : Env) :
  runs rand g e -> reachable rand g e.
Proof.
  induction 1 as [fuel g e H | fuel inp g e g' ex e' _ IH H].
  - exact (reach_new rand fuel g e H).
  - exact (reach_frame rand fuel inp g e g' ex e' IH H).
Qed.

Lemma runs_play (rand : nat -> Z) (fuel : nat) (inputs : list Input) :
  forall g e g' e',
    runs rand g e -> play rand fuel inputs g e = Ok (g', e') -> runs rand g' e'.
Proof.
  induction inputs as [|inp rest IH]; intros g e g' e' Hr H; simpl in H.
  - injection H as <- <-. exact Hr.
  - destruct (frame rand fuel inp g e) as [[[g1 ex] e1]| |] eqn:Hf;
      try discriminate.
    pose proof (run_frame rand fuel inp g e g1 ex e1 Hr Hf) as Hr1.
    destruct ex; [injection H as <- <-; exact Hr1 | exact (IH _ _ _ _ Hr1 H)].
Qed.

(** The run of [twin_rand] continued until the snake has left the grid on
    the right, and the same with the up key held in the last frame. *)
Definition demo_lost : Game * Env :=
  Eval vm_compute in
    match play twin_rand 3 (clock_inputs 17 3) (fst demo3) (snd demo3) with
    | Ok r => r
    | _ => demo3
    end.

Definition demo_wall : Game * Env :=
  Eval vm_compute in
    match play twin_rand 3 (clock_inputs 16 3) (fst demo3) (snd demo3) with
    | Ok r => r
    | _ => demo3
    end.

Definition up_input (t : float) : Input :=
  mkInput t false false false false true false false false.

Definition demo_stuck : Game * Env :=
  Eval vm_compute in
    match frame twin_rand 3 (up_input 19) (fst demo_wall) (snd demo_wall) with
    | Ok (g, _, e) => (g, e)
    | _ => demo_wall
    end.

Lemma demo3_runs : runs twin_rand (fst demo3) (snd demo3).
Proof.
  apply (run_frame twin_rand 3 (no_input 2) (fst demo2) (snd demo2) _ false).
  - apply (run_frame twin_rand 3 (no_input 1) (fst demo1) (snd demo1) _ false).
    + apply (run_frame twin_rand 3 enter_input (fst demo0) (snd demo0) _ false).
      * apply (run_new twin_rand 3). vm_compute. reflexivity.
      * vm_compute. reflexivity.
    + vm_compute. reflexivity.
  - vm_compute. reflexivity.
Qed.

Lemma demo_wall_runs : runs twin_rand (fst demo_wall) (snd demo_wall).
Proof.
  apply (runs_play twin_rand 3 (clock_inputs 16 3) (fst demo3) (snd demo3));
    [exact demo3_runs | vm_compute; reflexivity].
Qed.

Lemma demo_lost_runs : runs twin_rand (fst demo_lost) (snd demo_lost).
Proof.
  apply (runs_play twin_rand 3 (clock_inputs 17 3) (fst demo3) (snd demo3));
    [exact demo3_runs | vm_compute; reflexivity].
Qed.

Example demo_lost_state :
  mode (fst demo_wall) = Playing /\
  body (snake (fst demo_wall)) = [(24, 9); (23, 9); (22, 9); (21, 9)] /\
  mode (fst demo_lost) = GameOverScreen /\
  high_score (snd demo_lost) = 2 /\
  running (fst demo_stuck) = true /\ game_over (fst demo_stuck) = true.
Proof. repeat split. Qed.

Lemma high_score_record_witness :
  high_score (snd demo_wall) = 0 /\ high_score (snd demo_lost) = 2 /\
  high_score (snd demo_wall) <= high_score (snd demo_lost) /\
  0 <= temp_score (snd demo_lost) <= high_score (snd demo_lost) /\
  (high_score (snd demo_lost) = high_score (snd demo_wall) \/
   high_score (snd demo_lost) = temp_score (snd demo_lost)).
Proof.
  assert (Hrun : frame twin_rand 3 (no_input 19) (fst demo_wall) (snd demo_wall) =
                 Ok ((fst demo_lost, false), snd demo_lost))
    by (vm_compute; reflexivity).
  split; [reflexivity|]. split; [reflexivity|].
  exact (high_score_record twin_rand 3 (no_input 19) (fst demo_wall)
           (snd demo_wall) (fst demo_lost) false (snd demo_lost)
           (runs_reachable twin_rand _ _ demo_wall_runs) Hrun).
Defined.

(** The snake is never longer than the score accounts for. *)
Definition Len (g : Game) : Prop :=
  Z.of_nat (length (body (snake g))) + (if addSegment (snake g) then 1 else 0)
  <= 3 + score g.

(** What a direction key leaves alone. *)
Lemma direction_key_keeps (pressed : bool) (k : Key) (g : Game) :
  game_over (direction_key pressed k g) = game_over g /\
  body (snake (direction_key pressed k g)) = body (snake g) /\
  addSegment (snake (direction_key pressed k g)) = addSegment (snake g) /\
  score (direction_key pressed k g) = score g /\
  speed (direction_key pressed k g) = speed g /\
  fruits (direction_key pressed k g) = fruits g /\
  (running g = true -> running (direction_key pressed k g) = true).
Proof.
  unfold direction_key.
  destruct (pressed && key_guard k (direction (snake g))); repeat split; auto.
Qed.

Definition keys (inp : Input) (g : Game) : Game :=
  direction_key (right_pressed inp) KEY_RIGHT
    (direction_key (left_pressed inp) KEY_LEFT
       (direction_key (down_pressed inp) KEY_DOWN
          (direction_key (up_pressed inp) KEY_UP g))).

Lemma keys_keep (inp : Input) (g : Game) :
  game_over (keys inp g) = game_over g /\
  body (snake (keys inp g)) = body (snake g) /\
  addSegment (snake (keys inp g)) = addSegment (snake g) /\
  score (keys inp g) = score g /\
  speed (keys inp g) = speed g /\
  fruits (keys inp g) = fruits g /\
  (running g = true -> running (keys inp g) = true).
Proof.
  unfold keys.
  destruct (direction_key_keeps (up_pressed inp) KEY_UP g)
    as (A1 & A2 & A3 & A4 & A5 & A6 & A7).
  destruct (direction_key_keeps (down_pressed inp) KEY_DOWN
              (direction_key (up_pressed inp) KEY_UP g))
    as (B1 & B2 & B3 & B4 & B5 & B6 & B7).
  destruct (direction_key_keeps (left_pressed inp) KEY_LEFT
              (direction_key (down_pressed inp) KEY_DOWN
                 (direction_key (up_pressed inp) KEY_UP g)))
    as (C1 & C2 & C3 & C4 & C5 & C6 & C7).
  destruct (direction_key_keeps (right_pressed inp) KEY_RIGHT
              (direction_key (left_pressed inp) KEY_LEFT
                 (direction_key (down_pressed inp) KEY_DOWN
                    (direction_key (up_pressed inp) KEY_UP g))))
    as (D1 & D2 & D3 & D4 & D5 & D6 & D7).
  repeat split; try congruence. auto.
Qed.

(** The frame of a game in play (running, not over): the clock test, the
    tick when it is due, then the keys. *)
Lemma frame_playing (rand : nat -> Z) (fuel : nat) (inp : Input) (g : Game)
    (e : Env) (r : Game * bool * Env) :
  running g = true -> game_over g = false ->
  frame rand fuel inp g e = Ok r ->
  exists t e1 g1 e2,
    EventTriggered (now inp) (speed g) e = Ok (t, e1) /\
    (if t then Update rand fuel g e1 else Ok (g, e1)) = Ok (g1, e2) /\
    r = ((keys inp g1, false), e2).
Proof.
  intros Hr Hgo. unfold frame. rewrite Hr, andb_false_r, Hgo, Hr. cbn [negb andb].
  intros H. run_split H t e1 Ht. run_split H g1 e2 Hu.
  apply ret_Ok in H. exists t, e1, g1, e2.
  split; [exact Ht|]. split; [destruct t; exact Hu | exact H].
Qed.

(** A tick of a game in play from a state satisfying the invariant: either
    the round has ended and everything is set for the next one, or the game
    is still in play and the snake is no longer than the score accounts
    for. *)
Lemma Update_playing (rand : nat -> Z) (fuel : nat) (g : Game) (e : Env)
    (g' : Game) (e' : Env) :
  Inv g -> Len g -> running g = true -> game_over g = false ->
  Update rand fuel g e = Ok (g', e') ->
  (game_over g' = true /\ running g' = false /\ Fresh g' /\
   direction (snake g') = (1, 0)) \/
  (game_over g' = false /\ running g' = true /\ Len g').
Proof.
  intros HI HL Hrun Hgo H.
  destruct (body (snake g)) as [|head rest] eqn:Hb.
  { exfalso. exact (inv_body g HI Hb). }
  destruct (Update_Ok rand fuel g e head rest g' e' Hrun Hb H)
    as (fs1 & c1 & _ & _ & Hend).
  cbv zeta in Hend. destruct (head_out _ || ElementInDeque _ _) eqn:Efire.
  - left. apply end_round_Ok in Hend. destruct Hend as (e1 & Hg & _).
    apply GameOver_Ok in Hg. destruct Hg as (fs & c & Hg' & _).
    assert (Hover : game_over g' = true) by (rewrite Hg'; reflexivity).
    pose proof (round_end_flag_clear rand fuel g e g' e' HI Hgo H Hover) as Hflag.
    rewrite Hg' in Hflag |- *.
    split; [reflexivity|]. split; [reflexivity|]. split; [|reflexivity].
    constructor; try reflexivity. exact Hflag.
  - right. injection Hend as <- _. unfold fed.
    cbn [fst game_over running]. split; [exact Hgo|]. split; [reflexivity|].
    unfold Len in *. cbn [snake body addSegment score].
    rewrite Hb in HL.
    assert (Hl : Z.of_nat (length (Vector2Add head (direction (snake g)) ::
                   (if addSegment (snake g) then head :: rest
                    else removelast (head :: rest)))) =
                 Z.of_nat (length (head :: rest)) +
                 (if addSegment (snake g) then 1 else 0)).
    { destruct (addSegment (snake g)).
      - cbn [length]. lia.
      - change (Z.of_nat (S (length (removelast (head :: rest)))) =
                Z.of_nat (length (head :: rest)) + 0).
        rewrite removelast_cons_length. cbn [length]. lia. }
    change (match rest with
            | [] => []
            | _ :: _ => head :: removelast rest
            end) with (removelast (head :: rest)).
    rewrite Hl.
    destruct (fruits_on _ (fruits g)) as [|k]; cbn [Nat.ltb Nat.leb]; lia.
Qed.

(** What the loop of [main] keeps, besides the invariant of the game. *)
Lemma frame_rest (rand : nat -> Z) (fuel : nat) (inp : Input) (g : Game)
    (e : Env) (g' : Game) (ex : bool) (e' : Env) :
  Inv g -> Len g -> (mode g <> Playing -> Fresh g) ->
  frame rand fuel inp g e = Ok ((g', ex), e') ->
  Len g' /\ (mode g' <> Playing -> Fresh g').
Proof.
  intros HI HL HF H.
  destruct (game_over g) eqn:Hgo.
  { (* game-over screen, or Enter on it *)
    assert (Hf : Fresh g) by (apply HF; unfold mode; rewrite Hgo; discriminate).
    unfold frame in H.
    destruct (enter_pressed inp && negb (running g)).
    - cbn [game_over set_game_over set_running running negb andb] in H.
      run_split H t e1 Ht. run_split H g1 e2 Hu.
      apply ret_Ok in H. injection H as -> _ _. fold (keys inp g1).
      destruct (keys_keep inp g1) as (K1 & K2 & K3 & K4 & K5 & _ & K7).
      assert (HI0 : Inv (set_game_over false (set_running true g))).
      { destruct HI as [H1 H2 H3 H4 H5]. constructor; assumption. }
      assert (Hcase :
        (game_over g1 = true /\ running g1 = false /\ Fresh g1 /\
         direction (snake g1) = (1, 0)) \/
        (game_over g1 = false /\ running g1 = true /\ Len g1)).
      { destruct t.
        - apply (Update_playing rand fuel _ e1 g1 e2 HI0); try reflexivity;
            [exact HL | exact Hu].
        - injection Hu as <- _. right. repeat split. exact HL. }
      destruct Hcase as [(G1 & G2 & [F1 F2 F3 F4] & _) | (G1 & G2 & G3)].
      + split.
        * unfold Len. rewrite K2, K3, K4, F1, F2, F3. simpl. lia.
        * intros _. constructor; congruence.
      + split.
        * unfold Len in *. rewrite K2, K3, K4. exact G3.
        * intros Hm. exfalso. apply Hm. unfold mode. rewrite K1, G1, (K7 G2).
          reflexivity.
    - rewrite Hgo in H. apply ret_Ok in H. injection H as -> _ _.
      destruct (restart_clicked inp).
      + split; [exact HL|]. intros Hm. exfalso. apply Hm. reflexivity.
      + split; [exact HL | exact HF]. }
  destruct (running g) eqn:Hrun.
  - (* in play *)
    destruct (frame_playing rand fuel inp g e _ Hrun Hgo H)
      as (t & e1 & g1 & e2 & _ & Hu & Hr).
    injection Hr as -> _ _.
    destruct (keys_keep inp g1) as (K1 & K2 & K3 & K4 & K5 & _ & K7).
    assert (Hcase :
      (game_over g1 = true /\ running g1 = false /\ Fresh g1 /\
       direction (snake g1) = (1, 0)) \/
      (game_over g1 = false /\ running g1 = true /\ Len g1)).
    { destruct t.
      - exact (Update_playing rand fuel g e1 g1 e2 HI HL Hrun Hgo Hu).
      - injection Hu as <- _. right. repeat split; assumption. }
    destruct Hcase as [(G1 & G2 & [F1 F2 F3 F4] & _) | (G1 & G2 & G3)].
    + split.
      * unfold Len. rewrite K2, K3, K4, F1, F2, F3. simpl. lia.
      * intros _. constructor; congruence.
    + split.
      * unfold Len in *. rewrite K2, K3, K4. exact G3.
      * intros Hm. exfalso. apply Hm. unfold mode. rewrite K1, G1, (K7 G2).
        reflexivity.
  - (* menu *)
    assert (Hf : Fresh g).
    { apply HF. unfold mode. rewrite Hgo, Hrun. discriminate. }
    unfold frame in H. rewrite Hrun in H. cbn [negb] in H.
    rewrite andb_true_r in H.
    destruct (enter_pressed inp).
    + cbn [game_over set_game_over set_running running negb andb] in H.
      run_split H t e1 Ht. run_split H g1 e2 Hu.
      apply ret_Ok in H. injection H as -> _ _. fold (keys inp g1).
      destruct (keys_keep inp g1) as (K1 & K2 & K3 & K4 & K5 & _ & K7).
      assert (HI0 : Inv (set_game_over false (set_running true g))).
      { destruct HI as [H1 H2 H3 H4 H5]. constructor; assumption. }
      assert (Hcase :
        (game_over g1 = true /\ running g1 = false /\ Fresh g1 /\
         direction (snake g1) = (1, 0)) \/
        (game_over g1 = false /\ running g1 = true /\ Len g1)).
      { destruct t.
        - apply (Update_playing rand fuel _ e1 g1 e2 HI0); try reflexivity;
            [exact HL | exact Hu].
        - injection Hu as <- _. right. repeat split. exact HL. }
      destruct Hcase as [(G1 & G2 & [F1 F2 F3 F4] & _) | (G1 & G2 & G3)].
      * split.
        -- unfold Len. rewrite K2, K3, K4, F1, F2, F3. simpl. lia.
        -- intros _. constructor; congruence.
      * split.
        -- unfold Len in *. rewrite K2, K3, K4. exact G3.
        -- intros Hm. exfalso. apply Hm. unfold mode. rewrite K1, G1, (K7 G2).
           reflexivity.
    + rewrite Hgo, Hrun in H. cbn [negb andb] in H.
      destruct (exit_clicked inp); [|destruct (start_clicked inp)];
        apply ret_Ok in H; injection H as -> _ _.
      * split; [exact HL | exact HF].
      * split; [exact HL|]. intros Hm. exfalso. apply Hm. unfold mode.
        cbn. rewrite Hgo. reflexivity.
      * split; [exact HL | exact HF].
Qed.

Lemma runs_rest (rand : nat -> Z) (g : Game) (e : Env) :
  runs rand g e -> Len g /\ (mode g <> Playing -> Fresh g).
Proof.
  induction 1 as [fuel g e H | fuel inp g e g' ex e' Hr IH H].
  - unfold Game_new in H. run_split H fs e1 Hp.
    apply ret_Ok in H. injection H as -> _.
    split; [unfold Len; simpl; lia|]. intros _. constructor; reflexivity.
  - destruct IH as [HL HF].
    exact (frame_rest rand fuel inp g e g' ex e'
             (reachable_Inv rand g e (runs_reachable rand g e Hr)) HL HF H).
Qed.

(** X10: whenever the loop of [main] is not in play (on the menu or on the
    game-over screen) the next round is ready: the snake has its initial
    three cells, no growth is pending, the score is 0 and the tick interval
    is 0.2.  In particular [Snake::Reset] is only ever called with the
    pending-growth flag clear. *)
Theorem between_rounds_fresh (rand : nat -> Z) (g : Game) (e : Env) :
  runs rand g e ->
  mode g <> Playing ->
  body (snake g) = [(6, 9); (5, 9); (4, 9)] /\
  addSegment (snake g) = false /\
  score g = 0 /\
  speed g = 0.2%float.
Proof.
  intros Hr Hm. destruct (runs_rest rand g e Hr) as [_ HF].
  destruct (HF Hm) as [F1 F2 F3 F4]. repeat split; assumption.
Qed.

Lemma between_rounds_fresh_witness :
  mode (fst demo_lost) = GameOverScreen /\
  temp_score (snd demo_lost) = 2 /\
  body (snake (fst demo_lost)) = [(6, 9); (5, 9); (4, 9)] /\
  addSegment (snake (fst demo_lost)) = false /\
  score (fst demo_lost) = 0 /\
  speed (fst demo_lost) = 0.2%float.
Proof.
  split; [reflexivity|]. split; [reflexivity|].
  apply (between_rounds_fresh twin_rand (fst demo_lost) (snd demo_lost)).
  - exact demo_lost_runs.
  - discriminate.
Defined.



Lemma keys_after_reset (inp : Input) (g : Game) :
  direction (snake g) = (1, 0) -> running g = false ->
  running (keys inp g) =
    up_pressed inp || down_pressed inp || right_pressed inp.
Proof.
  intros Hd Hr. unfold keys, direction_key.
  destruct g as [sc sp r go [a b d] fs]. cbn in Hd, Hr. subst d r.
  destruct (up_pressed inp), (down_pressed inp), (left_pressed inp),
    (right_pressed inp); reflexivity.
Qed.

(** X12: the direction keys are read after the tick of the same frame.  When
    that tick ends the round, the up, down or right key pressed in that frame
    sets [running] again while [game_over] stays set; and in a state with
    both flags set a frame without a click on the restart button changes
    nothing, whatever the keys, the Enter key included. *)
Theorem keys_after_round_end (rand : nat -> Z) (fuel : nat) (inp : Input)
    (g : Game) (e : Env) (g' : Game) (ex : bool) (e' : Env) :
  runs rand g e ->
  mode g = Playing ->
  frame rand fuel inp g e = Ok ((g', ex), e') ->
  game_over g' = true ->
  running g' = up_pressed inp || down_pressed inp || right_pressed inp /\
  (running g' = true ->
   forall fuel2 inp2 e2, restart_clicked inp2 = false ->
     frame rand fuel2 inp2 g' e2 = Ok ((g', false), e2)).
Proof.
  intros Hr Hm H Hover.
  assert (Hgo : game_over g = false /\ running g = true).
  { unfold mode in Hm. destruct (game_over g); [discriminate|].
    destruct (running g); [split; reflexivity | discriminate]. }
  destruct Hgo as [Hgo Hrun].
  pose proof (reachable_Inv rand g e (runs_reachable rand g e Hr)) as HI.
  destruct (runs_rest rand g e Hr) as [HL _].
  destruct (frame_playing rand fuel inp g e _ Hrun Hgo H)
    as (t & e1 & g1 & e2 & _ & Hu & Heq).
  injection Heq as -> _ _.
  destruct (keys_keep inp g1) as (K1 & _).
  rewrite K1 in Hover.
  assert (Hended : running g1 = false /\ direction (snake g1) = (1, 0)).
  { destruct t.
    - destruct (Update_playing rand fuel g e1 g1 e2 HI HL Hrun Hgo Hu)
        as [(_ & G2 & _ & G4) | (G1 & _)]; [split; assumption | congruence].
    - injection Hu as <- _. congruence. }
  destruct Hended as [Hr1 Hd1]. split.
  - exact (keys_after_reset inp g1 Hd1 Hr1).
  - intros Hrun' fuel2 inp2 e3 Hnoclick. unfold frame.
    rewrite Hrun', andb_false_r, K1, Hover, Hnoclick. reflexivity.
Qed.

Lemma keys_after_round_end_witness :
  mode (fst demo_wall) = Playing /\
  running (fst demo_stuck) = true /\ game_over (fst demo_stuck) = true /\
  frame twin_rand 3 enter_input (fst demo_stuck) (snd demo_stuck) =
    Ok ((fst demo_stuck, false), snd demo_stuck).
Proof.
  assert (Hrun : frame twin_rand 3 (up_input 19) (fst demo_wall) (snd demo_wall) =
                 Ok ((fst demo_stuck, false), snd demo_stuck))
    by (vm_compute; reflexivity).
  destruct (keys_after_round_end twin_rand 3 (up_input 19) (fst demo_wall)
              (snd demo_wall) (fst demo_stuck) false (snd demo_stuck)
              demo_wall_runs eq_refl Hrun eq_refl) as [H1 H2].
  split; [reflexivity|]. split; [exact H1|]. split; [reflexivity|].
  exact (H2 H1 3%nat enter_input (snd demo_stuck) eq_refl).
Defined.

Lemma Update_not_menu (rand : nat -> Z) (fuel : nat) (g : Game) (e : Env)
    (g' : Game) (e' : Env) :
  running g = true -> Update rand fuel g e = Ok (g', e') ->
  game_over g' = true \/ running g' = true.
Proof.
  intros Hrun H. destruct (body (snake g)) as [|head rest] eqn:Hb.
  { unfold Update, bind, lift, Snake_Update in H. rewrite Hrun, Hb in H.
    discriminate. }
  destruct (Update_Ok rand fuel g e head rest g' e' Hrun Hb H)
    as (fs1 & c1 & _ & _ & Hend).
  cbv zeta in Hend. destruct (head_out _ || ElementInDeque _ _).
  - left. apply end_round_Ok in Hend. destruct Hend as (e1 & Hg & _).
    apply GameOver_Ok in Hg. destruct Hg as (fs & c & -> & _). reflexivity.
  - right. injection Hend as <- _. reflexivity.
Qed.

(** X13: no frame leads back to the menu: once the game has been started the
    loop is in play or on the game-over screen for good.  A frame asks to
    leave the loop only on the menu, when the exit button is clicked and
    Enter is not pressed, and then changes nothing; and without Enter or a
    click on the start button the menu stays. *)
Theorem menu_is_left_for_good (rand : nat -> Z) (fuel : nat) (inp : Input)
    (g : Game) (e : Env) (g' : Game) (ex : bool) (e' : Env) :
  frame rand fuel inp g e = Ok ((g', ex), e') ->
  (mode g <> Menu -> mode g' <> Menu) /\
  (ex = true ->
     mode g = Menu /\ exit_clicked inp = true /\ enter_pressed inp = false /\
     g' = g /\ e' = e) /\
  (mode g = Menu -> enter_pressed inp = false -> start_clicked inp = false ->
     g' = g /\ e' = e).
Proof.
  intros H.
  assert (Hplay : forall g0, running g0 = true -> game_over g0 = false ->
            frame rand fuel inp g0 e = Ok ((g', ex), e') ->
            mode g' <> Menu /\ ex = false).
  { intros g0 Hr Hgo H0.
    destruct (frame_playing rand fuel inp g0 e _ Hr Hgo H0)
      as (t & e1 & g1 & e2 & _ & Hu & Heq).
    injection Heq as -> -> _. split; [|reflexivity].
    destruct (keys_keep inp g1) as (K1 & _ & _ & _ & _ & _ & K7).
    assert (Hc : game_over g1 = true \/ running g1 = true).
    { destruct t; [exact (Update_not_menu rand fuel g0 e1 g1 e2 Hr Hu)|].
      injection Hu as <- _. right. exact Hr. }
    unfold mode. rewrite K1. destruct (game_over g1); [discriminate|].
    destruct Hc as [Hc | Hc]; [discriminate|]. rewrite (K7 Hc). discriminate. }
  destruct (game_over g) eqn:Hgo; destruct (running g) eqn:Hrun.
  - (* both flags set *)
    unfold frame in H. rewrite Hrun, andb_false_r, Hgo in H.
    apply ret_Ok in H. injection H as -> -> ->.
    split; [|split].
    + intros _. unfold mode. destruct (restart_clicked inp); cbn;
        rewrite ?Hgo; discriminate.
    + discriminate.
    + unfold mode. rewrite Hgo. discriminate.
  - (* game-over screen *)
    destruct (enter_pressed inp) eqn:He.
    + assert (H0 : frame rand fuel inp (set_game_over false (set_running true g)) e
                   = Ok ((g', ex), e')).
      { unfold frame in H |- *. rewrite He, Hrun in H. cbn [negb andb] in H.
        cbn [running set_game_over set_running negb]. rewrite andb_false_r.
        exact H. }
      destruct (Hplay (set_game_over false (set_running true g))
                  eq_refl eq_refl H0) as [Hm ->].
      split; [intros _; exact Hm|]. split; [discriminate|].
      unfold mode. rewrite Hgo. discriminate.
    + unfold frame in H. rewrite He in H. cbn [andb] in H. rewrite Hgo in H.
      apply ret_Ok in H. injection H as -> -> ->.
      split; [|split].
      * intros _. unfold mode. destruct (restart_clicked inp); cbn;
          rewrite ?Hgo; discriminate.
      * discriminate.
      * unfold mode. rewrite Hgo. discriminate.
  - (* in play *)
    destruct (Hplay g Hrun Hgo H) as [Hm ->].
    split; [intros _; exact Hm|]. split; [discriminate|].
    unfold mode. rewrite Hgo, Hrun. discriminate.
  - (* menu *)
    destruct (enter_pressed inp) eqn:He.
    + assert (H0 : frame rand fuel inp (set_game_over false (set_running true g)) e
                   = Ok ((g', ex), e')).
      { unfold frame in H |- *. rewrite He, Hrun in H. cbn [negb andb] in H.
        cbn [running set_game_over set_running negb]. rewrite andb_false_r.
        exact H. }
      destruct (Hplay (set_game_over false (set_running true g))
                  eq_refl eq_refl H0) as [Hm ->].
      split; [intros Hc; exfalso; apply Hc; unfold mode; rewrite Hgo, Hrun;
              reflexivity|].
      split; discriminate.
    + unfold frame in H. rewrite He in H. cbn [andb] in H.
      rewrite Hgo, Hrun in H. cbn [negb andb] in H.
      split; [intros Hc; exfalso; apply Hc; unfold mode; rewrite Hgo, Hrun;
              reflexivity|].
      destruct (exit_clicked inp); [|destruct (start_clicked inp)];
        apply ret_Ok in H; injection H as -> -> ->.
      * split; [intros _; repeat split; unfold mode; rewrite Hgo, Hrun;
                reflexivity|].
        intros _ _ _. split; reflexivity.
      * split; discriminate.
      * split; [discriminate|]. intros _ _ _. split; reflexivity.
Qed.

Lemma menu_is_left_for_good_witness :
  mode (fst demo0) = Menu /\ mode (fst demo1) = Playing /\
  mode (fst demo_lost) <> Menu.
Proof.
  assert (Hrun : frame twin_rand 3 (no_input 19) (fst demo_wall) (snd demo_wall) =
                 Ok ((fst demo_lost, false), snd demo_lost))
    by (vm_compute; reflexivity).
  split; [reflexivity|]. split; [reflexivity|].
  apply (proj1 (menu_is_left_for_good twin_rand 3 (no_input 19) (fst demo_wall)
                  (snd demo_wall) (fst demo_lost) false (snd demo_lost) Hrun)).
  discriminate.
Defined.

(** ** The tick gate *)

Lemma Update_lastUpdateTime (rand : nat -> Z) (fuel : nat) (g : Game) (e : Env)
    (g' : Game) (e' : Env) :
  Update rand fuel g e = Ok (g', e') -> lastUpdateTime e' = lastUpdateTime e.
Proof.
  intros H. destruct (running g) eqn:Hrun.
  2:{ unfold Update in H. rewrite Hrun in H. apply ret_Ok in H.
      injection H as _ ->. reflexivity. }
  destruct (body (snake g)) as [|head rest] eqn:Hb.
  { unfold Update, bind, lift, Snake_Update in H. rewrite Hrun, Hb in H.
    discriminate. }
  destruct (Update_Ok rand fuel g e head rest g' e' Hrun Hb H)
    as (fs1 & c1 & _ & _ & Hend).
  cbv zeta in Hend. destruct (head_out _ || ElementInDeque _ _).
  - apply end_round_Ok in Hend. destruct Hend as (e1 & Hg & ->).
    apply GameOver_Ok in Hg. destruct Hg as (fs & c & _ & _ & _ & ->).
    reflexivity.
  - injection Hend as _ <-. reflexivity.
Qed.

(** X14: in play, a frame ticks exactly when [EventTriggered] finds the
    interval elapsed, [now - lastUpdateTime >= speed], and then records [now]
    as the time of the last tick, also when the tick ends the round.  A frame
    whose clock test fails does not touch the globals, the body, the growth
    flag, the fruits, the score or the interval: only the direction keys
    act. *)
Theorem frame_tick_gate (rand : nat -> Z) (fuel : nat) (inp : Input)
    (g : Game) (e : Env) (g' : Game) (ex : bool) (e' : Env) :
  mode g = Playing ->
  frame rand fuel inp g e = Ok ((g', ex), e') ->
  (PrimFloat.leb (speed g) (PrimFloat.sub (now inp) (lastUpdateTime e)) = true ->
     lastUpdateTime e' = now inp /\
     exists g1,
       Update rand fuel g
         (mkEnv (high_score e) (temp_score e) (now inp) (rand_cursor e)
            (played e)) = Ok (g1, e') /\
       g' = keys inp g1) /\
  (PrimFloat.leb (speed g) (PrimFloat.sub (now inp) (lastUpdateTime e)) = false ->
     e' = e /\ g' = keys inp g /\
     body (snake g') = body (snake g) /\
     addSegment (snake g') = addSegment (snake g) /\
     fruits g' = fruits g /\ score g' = score g /\ speed g' = speed g /\
     mode g' = Playing).
Proof.
  intros Hm H.
  assert (Hgo : game_over g = false /\ running g = true).
  { unfold mode in Hm. destruct (game_over g); [discriminate|].
    destruct (running g); [split; reflexivity | discriminate]. }
  destruct Hgo as [Hgo Hrun].
  destruct (frame_playing rand fuel inp g e _ Hrun Hgo H)
    as (t & e1 & g1 & e2 & Ht & Hu & Heq).
  injection Heq as -> _ ->. unfold EventTriggered in Ht. split.
  - intros Hdue. rewrite Hdue in Ht. injection Ht as <- <-.
    split; [|exists g1; split; [exact Hu | reflexivity]].
    rewrite (Update_lastUpdateTime rand _ _ _ _ _ Hu). reflexivity.
  - intros Hdue. rewrite Hdue in Ht. injection Ht as <- <-.
    injection Hu as <- <-.
    destruct (keys_keep inp g) as (K1 & K2 & K3 & K4 & K5 & K6 & K7).
    repeat (split; [first [reflexivity | assumption]|]).
    unfold mode. rewrite K1, Hgo, (K7 Hrun). reflexivity.
Qed.

Definition early_input : Input :=
  mkInput 2.1%float false false false false false true false false.

Definition demo_early : Game * Env :=
  Eval vm_compute in
    match frame twin_rand 3 early_input (fst demo3) (snd demo3) with
    | Ok (g, _, e) => (g, e)
    | _ => demo3
    end.

Lemma frame_tick_gate_witness :
  snd demo_early = snd demo3 /\
  body (snake (fst demo_early)) = body (snake (fst demo3)) /\
  direction (snake (fst demo_early)) = (0, 1) /\
  score (fst demo_early) = score (fst demo3).
Proof.
  assert (Hrun : frame twin_rand 3 early_input (fst demo3) (snd demo3) =
                 Ok ((fst demo_early, false), snd demo_early))
    by (vm_compute; reflexivity).
  destruct (proj2 (frame_tick_gate twin_rand 3 early_input (fst demo3)
                     (snd demo3) (fst demo_early) false (snd demo_early)
                     eq_refl Hrun) eq_refl)
    as (H1 & _ & H3 & _ & _ & H6 & _).
  split; [exact H1|]. split; [exact H3|]. split; [reflexivity | exact H6].
Defined.

(** * The first version of the game: one fruit, constant pace

    [src/main.cpp] is the game before the fruits became three and the pace
    variable.  [ElementInDeque], [EventTriggered], [Snake] and
    [GenerateRandomPos] are the same as above; [Food] has its own texture and
    no texture index, and [Game] owns one [Food], modelled by its position. *)

Module Classic.

Record Game : Type := mkGame {
  score : Z;
  running : bool;
  game_over : bool;
  snake : Snake;
  food : Vector2
}.

Section Simulation.

Variable rand : nat -> Z.

(** [Game]'s member initialisers and [Game::Game()]. *)
Definition Game_new (fuel : nat) : M Game :=
  let snake0 := Snake_new in
  p <- GenerateRandomPos rand fuel (body snake0) ;;
  ret (mkGame 0 false false snake0 p).

(** [Game::CheckCollisionWithFood]. *)
Definition CheckCollisionWithFood (fuel : nat) (g : Game) : M Game :=
  match body (snake g) with
  | [] => undefined
  | head :: _ =>
      if Vector2Equals head (food g)
      then
        p <- GenerateRandomPos rand fuel (body (snake g)) ;;
        n <- lift (int_incr (score g)) ;;
        PlaySound eat ;;;
        ret (mkGame n (running g) (game_over g)
               (set_addSegment true (snake g)) p)
      else ret g
  end.

(** [Game::GameOver]. *)
Definition GameOver (fuel : nat) (g : Game) : M Game :=
  let s := Snake_Reset (snake g) in
  p <- GenerateRandomPos rand fuel (body s) ;;
  fun e =>
    let hs := if high_score e <=? score g then score g else high_score e in
    Ok (mkGame 0 false true s p,
        mkEnv hs (score g) (lastUpdateTime e) (rand_cursor e) (played e)).

(** [Game::CheckCollisionWithEdges]. *)
Definition CheckCollisionWithEdges (fuel : nat) (g : Game) : M Game :=
  match body (snake g) with
  | [] => undefined
  | head :: _ =>
      g1 <- (if (fst head =? cellcount) || (fst head =? -1)
             then g' <- GameOver fuel g ;; PlaySound wall ;;; ret g'
             else ret g) ;;
      match body (snake g1) with
      | [] => undefined
      | head1 :: _ =>
          if (snd head1 =? cellcount) || (snd head1 =? -1)
          then g' <- GameOver fuel g1 ;; PlaySound wall ;;; ret g'
          else ret g1
      end
  end.

(** [Game::CheckCollisionsWithTail]. *)
Definition CheckCollisionsWithTail (fuel : nat) (g : Game) : M Game :=
  match body (snake g) with
  | [] => undefined
  | head :: headless =>
      if ElementInDeque head headless
      then g' <- GameOver fuel g ;; PlaySound wall ;;; ret g'
      else ret g
  end.

(** [Game::Update]. *)
Definition Update (fuel : nat) (g : Game) : M Game :=
  if running g
  then
    s <- lift (Snake_Update (snake g)) ;;
    g1 <- CheckCollisionWithFood fuel
            (mkGame (score g) (running g) (game_over g) s (food g)) ;;
    g2 <- CheckCollisionWithEdges fuel g1 ;;
    CheckCollisionsWithTail fuel g2
  else ret g.

(** A direction key of [main], as in the later version. *)
Definition direction_key (pressed : bool) (k : Key) (g : Game) : Game :=
  if pressed && key_guard k (direction (snake g))
  then mkGame (score g) true (game_over g)
         (set_direction (key_direction k) (snake g)) (food g)
  else g.

(** The start of a round: Enter, or a click on the start or restart
    button. *)
Definition start (g : Game) : Game :=
  mkGame (score g) true false (snake g) (food g).

(** The states the first version goes through. *)
Inductive states : Game -> Env -> Prop :=
| st_new fuel g e : Game_new fuel Env0 = Ok (g, e) -> states g e
| st_start g e : states g e -> states (start g) e
| st_key pressed k g e : states g e -> states (direction_key pressed k g) e
| st_tick fuel g e g' e' :
    states g e -> Update fuel g e = Ok (g', e') -> states g' e'.

(** What the first version keeps: the fruit is on a grid cell off the snake,
    and the snake, counting a pending growth, has exactly three cells more
    than the score. *)
Record Inv (g : Game) : Prop := mkInv {
  inv_body : body (snake g) <> [];
  inv_food_grid : in_grid (food g);
  inv_food_off : ElementInDeque (food g) (body (snake g)) = false;
  inv_length :
    Z.of_nat (length (body (snake g))) +
    (if addSegment (snake g) then 1 else 0) = 3 + score g
}.

End Simulation.

End Classic.

(** ** Properties of the first version *)

Lemma classic_GameOver_Ok (rand : nat -> Z) (fuel : nat) (g : Classic.Game)
    (e : Env) (g' : Classic.Game) (e' : Env) :
  Classic.GameOver rand fuel g e = Ok (g', e') ->
  exists p c,
    g' = Classic.mkGame 0 false true (Snake_Reset (Classic.snake g)) p /\
    in_grid p /\ ElementInDeque p initial_body = false /\
    e' = mkEnv (Z.max (high_score e) (Classic.score g)) (Classic.score g)
               (lastUpdateTime e) c (played e).
Proof.
  unfold Classic.GameOver. intros H. run_split H p e1 Hp.
  apply GenerateRandomPos_Ok in Hp. destruct Hp as (Hg & Hoff & c & ->).
  injection H as <- <-. exists p, c.
  split; [reflexivity|]. split; [exact Hg|]. split; [exact Hoff|].
  simpl. f_equal.
  destruct (Z.leb_spec (high_score e) (Classic.score g)); lia.
Qed.

(** [GameOver] followed by the wall sound, in the first version. *)
Definition classic_end_round (rand : nat -> Z) (fuel : nat) (g : Classic.Game)
  : M Classic.Game :=
  g' <- Classic.GameOver rand fuel g ;; PlaySound wall ;;; ret g'.

Lemma classic_end_round_Ok (rand : nat -> Z) (fuel : nat) (g : Classic.Game)
    (e : Env) (g' : Classic.Game) (e' : Env) :
  classic_end_round rand fuel g e = Ok (g', e') ->
  exists p c,
    g' = Classic.mkGame 0 false true (Snake_Reset (Classic.snake g)) p /\
    in_grid p /\ ElementInDeque p initial_body = false /\
    e' = mkEnv (Z.max (high_score e) (Classic.score g)) (Classic.score g)
               (lastUpdateTime e) c (wall :: played e).
Proof.
  unfold classic_end_round. intros H. run_split H g1 e1 Hg.
  run_split H u e2 Hp. unfold PlaySound in Hp. injection Hp as _ <-.
  apply ret_Ok in H. injection H as -> ->.
  apply classic_GameOver_Ok in Hg.
  destruct Hg as (p & c & -> & Hg & Hoff & ->).
  exists p. eexists. split; [reflexivity|]. split; [exact Hg|].
  split; [exact Hoff | reflexivity].
Qed.

Lemma classic_checks_eq (rand : nat -> Z) (fuel : nat) (g : Classic.Game)
    (e : Env) (head : Vector2) (rest : list Vector2) :
  body (Classic.snake g) = head :: rest ->
  (g2 <- Classic.CheckCollisionWithEdges rand fuel g ;;
   Classic.CheckCollisionsWithTail rand fuel g2) e =
    if head_out head || ElementInDeque head rest
    then classic_end_round rand fuel g e
    else Ok (g, e).
Proof.
  intros Hb. unfold bind at 1, Classic.CheckCollisionWithEdges, head_out.
  rewrite Hb.
  destruct ((fst head =? cellcount) || (fst head =? -1)) eqn:Ex.
  - cbn [orb]. fold (classic_end_round rand fuel g). unfold bind at 1.
    destruct (classic_end_round rand fuel g e) as [[g1 e1]| |] eqn:Eg;
      try reflexivity.
    apply classic_end_round_Ok in Eg. destruct Eg as (p & c & -> & _).
    reflexivity.
  - cbn [orb]. unfold bind at 1, ret at 1. rewrite Hb.
    destruct ((snd head =? cellcount) || (snd head =? -1)) eqn:Ey.
    + cbn [orb]. fold (classic_end_round rand fuel g).
      destruct (classic_end_round rand fuel g e) as [[g1 e1]| |] eqn:Eg;
        try reflexivity.
      apply classic_end_round_Ok in Eg. destruct Eg as (p & c & -> & _).
      reflexivity.
    + cbn [orb]. unfold ret. unfold Classic.CheckCollisionsWithTail.
      rewrite Hb. destruct (ElementInDeque head rest); reflexivity.
Qed.

(** A tick of the first version when the game is running: the move, the
    meal when the new head is on the fruit, then at most one end of round. *)
Lemma classic_Update_Ok (rand : nat -> Z) (fuel : nat) (g : Classic.Game)
    (e : Env) (head : Vector2) (rest : list Vector2) (g' : Classic.Game)
    (e' : Env) :
  Classic.running g = true ->
  body (Classic.snake g) = head :: rest ->
  Classic.Update rand fuel g e = Ok (g', e') ->
  let head1 := Vector2Add head (direction (Classic.snake g)) in
  let rest1 := if addSegment (Classic.snake g) then head :: rest
               else removelast (head :: rest) in
  let hit := Vector2Equals head1 (Classic.food g) in
  exists p c,
    (hit = true -> in_grid p /\ ElementInDeque p (head1 :: rest1) = false /\
                   Classic.score g < INT_MAX) /\
    (hit = false -> p = Classic.food g) /\
    let g1 := Classic.mkGame (Classic.score g + if hit then 1 else 0) true
                (Classic.game_over g)
                (mkSnake hit (head1 :: rest1) (direction (Classic.snake g))) p in
    let e1 := mkEnv (high_score e) (temp_score e) (lastUpdateTime e) c
                (if hit then eat :: played e else played e) in
    (if head_out head1 || ElementInDeque head1 rest1
     then classic_end_round rand fuel g1 e1
     else Ok (g1, e1)) = Ok (g', e').
Proof.
  intros Hrun Hb H head1 rest1 hit. unfold Classic.Update in H.
  rewrite Hrun in H. run_split H s e0 Hs. apply lift_Ok in Hs.
  cbn [fst snd] in Hs. destruct Hs as [Hs ->].
  rewrite (Snake_Update_eq _ head rest Hb) in Hs. injection Hs as <-.
  fold head1 rest1 in H. run_split H g1 e1 Hfood.
  unfold Classic.CheckCollisionWithFood in Hfood.
  cbn [Classic.snake body Classic.food Classic.score Classic.running
       Classic.game_over] in Hfood.
  fold hit in Hfood. destruct hit eqn:Ehit.
  - run_split Hfood p e2 Hp. run_split Hfood n e3 Hn.
    run_split Hfood u e4 Hsnd.
    apply GenerateRandomPos_Ok in Hp. destruct Hp as (Hg & Hoff & c & ->).
    apply lift_Ok in Hn. cbn [fst snd] in Hn. destruct Hn as [Hn ->].
    unfold int_incr in Hn.
    destruct (Z.ltb_spec (Classic.score g) INT_MAX); [|discriminate].
    injection Hn as <-. unfold PlaySound in Hsnd. injection Hsnd as _ <-.
    apply ret_Ok in Hfood. injection Hfood as -> ->.
    exists p, c.
    split; [intros _; split; [exact Hg | split; [exact Hoff | assumption]]|].
    split; [discriminate|]. cbv zeta.
    rewrite (classic_checks_eq rand fuel _ _ head1 rest1) in H by reflexivity.
    exact H.
  - apply ret_Ok in Hfood. injection Hfood as -> ->.
    exists (Classic.food g), (rand_cursor e).
    split; [discriminate|]. split; [reflexivity|]. cbv zeta.
    rewrite (classic_checks_eq rand fuel _ _ head1 rest1) in H by reflexivity.
    rewrite Z.add_0_r. destruct e. exact H.
Qed.

(** The fruit is never where the round ends: a head on the fruit is in the
    grid and off the rest of the body. *)
Lemma classic_hit_is_safe (g : Classic.Game) (head : Vector2)
    (rest : list Vector2) :
  Classic.Inv g ->
  body (Classic.snake g) = head :: rest ->
  let head1 := Vector2Add head (direction (Classic.snake g)) in
  let rest1 := if addSegment (Classic.snake g) then head :: rest
               else removelast (head :: rest) in
  Vector2Equals head1 (Classic.food g) = true ->
  head_out head1 || ElementInDeque head1 rest1 = false.
Proof.
  intros HI Hb head1 rest1 Hhit. apply Vector2Equals_eq in Hhit.
  apply orb_false_iff. split.
  - apply in_grid_not_out. rewrite Hhit. exact (Classic.inv_food_grid g HI).
  - apply ElementInDeque_false. intros Hin.
    pose proof (Classic.inv_food_off g HI) as Hoff.
    apply ElementInDeque_false in Hoff. apply Hoff. rewrite <- Hhit, Hb.
    unfold rest1 in Hin. destruct (addSegment (Classic.snake g));
      [exact Hin | exact (In_removelast (head :: rest) _ Hin)].
Qed.

Lemma classic_Update_Inv (rand : nat -> Z) (fuel : nat) (g : Classic.Game)
    (e : Env) (g' : Classic.Game) (e' : Env) :
  Classic.Inv g -> Classic.Update rand fuel g e = Ok (g', e') -> Classic.Inv g'.
Proof.
  intros HI H. destruct (Classic.running g) eqn:Hrun.
  2:{ unfold Classic.Update in H. rewrite Hrun in H. apply ret_Ok in H.
      injection H as -> _. exact HI. }
  destruct (body (Classic.snake g)) as [|head rest] eqn:Hb.
  { exfalso. exact (Classic.inv_body g HI Hb). }
  destruct (classic_Update_Ok rand fuel g e head rest g' e' Hrun Hb H)
    as (p & c & Hp & Hmiss & Hend).
  pose proof (classic_hit_is_safe g head rest HI Hb) as Hsafe.
  cbv zeta in Hp, Hmiss, Hend, Hsafe.
  set (head1 := Vector2Add head (direction (Classic.snake g))) in *.
  set (rest1 := if addSegment (Classic.snake g) then head :: rest
                else removelast (head :: rest)) in *.
  pose proof (Classic.inv_length g HI) as Hlen. rewrite Hb in Hlen.
  assert (Hl1 : Z.of_nat (length (head1 :: rest1)) =
                Z.of_nat (length (head :: rest)) +
                (if addSegment (Classic.snake g) then 1 else 0)).
  { unfold rest1. destruct (addSegment (Classic.snake g)).
    - cbn [length]. lia.
    - change (Z.of_nat (S (length (removelast (head :: rest)))) =
              Z.of_nat (length (head :: rest)) + 0).
      rewrite removelast_cons_length. cbn [length]. lia. }
  destruct (Vector2Equals head1 (Classic.food g)) eqn:Ehit.
  - rewrite (Hsafe eq_refl) in Hend. injection Hend as <- _.
    destruct (Hp eq_refl) as (Hg & Hoff & _).
    constructor; cbn [Classic.snake Classic.food Classic.score body addSegment].
    + discriminate.
    + exact Hg.
    + exact Hoff.
    + lia.
  - destruct (head_out head1 || ElementInDeque head1 rest1).
    + apply classic_end_round_Ok in Hend.
      destruct Hend as (q & c' & -> & Hg & Hoff & _).
      constructor; cbn.
      * discriminate.
      * exact Hg.
      * exact Hoff.
      * reflexivity.
    + injection Hend as <- _. rewrite (Hmiss eq_refl).
      constructor; cbn [Classic.snake Classic.food Classic.score body addSegment].
      * discriminate.
      * exact (Classic.inv_food_grid g HI).
      * cbn [ElementInDeque]. rewrite Ehit.
        pose proof (Classic.inv_food_off g HI) as Hoff. rewrite Hb in Hoff.
        apply ElementInDeque_false. apply ElementInDeque_false in Hoff.
        intros Hin. apply Hoff. unfold rest1 in Hin.
        destruct (addSegment (Classic.snake g));
          [exact Hin | exact (In_removelast (head :: rest) _ Hin)].
      * lia.
Qed.

Lemma classic_states_Inv (rand : nat -> Z) (g : Classic.Game) (e : Env) :
  Classic.states rand g e -> Classic.Inv g.
Proof.
  induction 1 as [fuel g e H | g e _ IH | pressed k g e _ IH
                 | fuel g e g' e' _ IH H].
  - unfold Classic.Game_new in H. run_split H p e1 Hp.
    apply ret_Ok in H. injection H as -> _.
    apply GenerateRandomPos_Ok in Hp. destruct Hp as (Hg & Hoff & _).
    constructor; cbn; [discriminate | exact Hg | exact Hoff | reflexivity].
  - destruct IH as [H1 H2 H3 H4]. constructor; assumption.
  - unfold Classic.direction_key.
    destruct (pressed && key_guard k (direction (Classic.snake g)));
      [|exact IH].
    destruct IH as [H1 H2 H3 H4]. constructor; assumption.
  - exact (classic_Update_Inv rand fuel g e g' e' IH H).
Qed.

(** X15: in the first version, in every state reached from the constructed
    game by starts, direction keys and ticks, the one fruit is on a grid
    cell off the snake, and the snake, counting a pending growth, has
    exactly three cells more than the score. *)
Theorem classic_length_is_score (rand : nat -> Z) (g : Classic.Game) (e : Env) :
  Classic.states rand g e ->
  in_grid (Classic.food g) /\
  ~ In (Classic.food g) (body (Classic.snake g)) /\
  Z.of_nat (length (body (Classic.snake g))) +
    (if addSegment (Classic.snake g) then 1 else 0) = 3 + Classic.score g.
Proof.
  intros H. apply classic_states_Inv in H. destruct H as [_ H2 H3 H4].
  split; [exact H2|]. split; [|exact H4].
  exact (proj1 (ElementInDeque_false _ _) H3).
Qed.

(** A stream that puts the fruit on the cell in front of the snake, then on
    [(11,4)]. *)
Definition one_rand : nat -> Z := fun n => nth n [7; 9; 11; 4] 0.

Definition classic0 : Classic.Game * Env :=
  Eval vm_compute in
    match Classic.Game_new one_rand 3 Env0 with
    | Ok r => r
    | _ => (Classic.mkGame 0 false false Snake_new (0, 0), Env0)
    end.
Definition classic1 : Classic.Game * Env :=
  Eval vm_compute in
    match Classic.Update one_rand 3 (Classic.start (fst classic0)) (snd classic0) with
    | Ok r => r
    | _ => classic0
    end.
Definition classic2 : Classic.Game * Env :=
  Eval vm_compute in
    match Classic.Update one_rand 3 (fst classic1) (snd classic1) with
    | Ok r => r
    | _ => classic1
    end.

Lemma classic2_states : Classic.states one_rand (fst classic2) (snd classic2).
Proof.
  apply (Classic.st_tick one_rand 3 (fst classic1) (snd classic1)).
  - apply (Classic.st_tick one_rand 3 (Classic.start (fst classic0)) (snd classic0)).
    + apply Classic.st_start. apply (Classic.st_new one_rand 3).
      vm_compute. reflexivity.
    + vm_compute. reflexivity.
  - vm_compute. reflexivity.
Qed.

Lemma classic_length_is_score_witness :
  body (Classic.snake (fst classic2)) = [(8, 9); (7, 9); (6, 9); (5, 9)] /\
  Classic.score (fst classic2) = 1 /\
  Classic.food (fst classic2) = (11, 4) /\
  in_grid (Classic.food (fst classic2)) /\
  ~ In (Classic.food (fst classic2)) (body (Classic.snake (fst classic2))) /\
  Z.of_nat (length (body (Classic.snake (fst classic2)))) +
    (if addSegment (Classic.snake (fst classic2)) then 1 else 0) =
  3 + Classic.score (fst classic2).
Proof.
  split; [reflexivity|]. split; [reflexivity|]. split; [reflexivity|].
  exact (classic_length_is_score one_rand (fst classic2) (snd classic2)
           classic2_states).
Defined.

(** X16: a tick of the first version, from a state satisfying its invariant
    with the game running, never both eats and ends the round.  Either the
    new head is out of the grid or on the body: then the round ends, with no
    growth pending, the score moved to [temp_score] and into [high_score]
    when it is at least as large, and one wall sound.  Or the snake has
    moved: the score and the growth flag record whether the head is on the
    fruit, with one eat sound when it is, and the fruit stays where it was
    when it is not. *)
Theorem classic_tick (rand : nat -> Z) (fuel : nat) (g : Classic.Game)
    (e : Env) (head : Vector2) (rest : list Vector2) (g' : Classic.Game)
    (e' : Env) :
  Classic.Inv g ->
  Classic.running g = true ->
  body (Classic.snake g) = head :: rest ->
  Classic.Update rand fuel g e = Ok (g', e') ->
  let head1 := Vector2Add head (direction (Classic.snake g)) in
  let rest1 := if addSegment (Classic.snake g) then head :: rest
               else removelast (head :: rest) in
  let hit := Vector2Equals head1 (Classic.food g) in
  (head_out head1 || ElementInDeque head1 rest1 = true /\ hit = false /\
   Classic.game_over g' = true /\ Classic.running g' = false /\
   Classic.snake g' = mkSnake false [(6, 9); (5, 9); (4, 9)] (1, 0) /\
   Classic.score g' = 0 /\
   temp_score e' = Classic.score g /\
   high_score e' = Z.max (high_score e) (Classic.score g) /\
   played e' = wall :: played e) \/
  (head_out head1 || ElementInDeque head1 rest1 = false /\
   Classic.game_over g' = Classic.game_over g /\
   body (Classic.snake g') = head1 :: rest1 /\
   addSegment (Classic.snake g') = hit /\
   Classic.score g' = Classic.score g + (if hit then 1 else 0) /\
   played e' = (if hit then eat :: played e else played e) /\
   (hit = false -> Classic.food g' = Classic.food g) /\
   high_score e' = high_score e /\ temp_score e' = temp_score e).
Proof.
  intros HI Hrun Hb H head1 rest1 hit.
  destruct (classic_Update_Ok rand fuel g e head rest g' e' Hrun Hb H)
    as (p & c & Hp & Hmiss & Hend).
  pose proof (classic_hit_is_safe g head rest HI Hb) as Hsafe.
  cbv zeta in Hp, Hmiss, Hend, Hsafe.
  fold head1 rest1 in Hp, Hmiss, Hend, Hsafe. fold hit in Hp, Hmiss, Hend, Hsafe.
  destruct (head_out head1 || ElementInDeque head1 rest1) eqn:Efire.
  - left. assert (Hh : hit = false).
    { destruct hit; [|reflexivity]. specialize (Hsafe eq_refl). discriminate. }
    rewrite Hh in Hend. apply classic_end_round_Ok in Hend.
    destruct Hend as (q & c' & -> & _ & _ & ->). cbn.
    rewrite Z.add_0_r. repeat split. exact Hh.
  - right. injection Hend as <- <-. cbn. repeat split.
    exact Hmiss.
Qed.

Lemma classic_tick_witness :
  Classic.food (Classic.start (fst classic0)) = (7, 9) /\
  body (Classic.snake (fst classic1)) = [(7, 9); (6, 9); (5, 9)] /\
  addSegment (Classic.snake (fst classic1)) = true /\
  Classic.score (fst classic1) = 1 /\
  played (snd classic1) = [eat].
Proof.
  assert (Hrun : Classic.Update one_rand 3 (Classic.start (fst classic0))
                   (snd classic0) = Ok (fst classic1, snd classic1))
    by (vm_compute; reflexivity).
  assert (HI : Classic.Inv (Classic.start (fst classic0))).
  { apply (classic_states_Inv one_rand _ (snd classic0)).
    apply Classic.st_start. apply (Classic.st_new one_rand 3).
    vm_compute. reflexivity. }
  destruct (classic_tick one_rand 3 (Classic.start (fst classic0)) (snd classic0)
              (6, 9) [(5, 9); (4, 9)] _ _ HI eq_refl eq_refl Hrun)
    as [(_ & _ & Hover & _) | (_ & _ & H3 & H4 & H5 & H6 & _)].
  - discriminate Hover.
  - split; [reflexivity|]. repeat split; assumption.
Defined.
